(** * babble: the RollingList window and the NetworkTransport RPC engine

    A shallow embedding of [common/rolling_list.go] and of the call paths of
    [net/net_transport.go], with the properties the specification states
    about them.

    Conventions.
    - Go's [int] is taken at its 64-bit width (amd64, arm64): a value is a
      [Z] in [[int_min, int_max]] and every arithmetic operation of the
      source is followed by [wrap], Go's silent two's complement overflow.
    - A slice is a [list]; [len] is its length as an [int].
    - A run-time panic is the result [Panic], a goroutine that waits for
      ever is the result [Blocked]; a normal return is [Done].
    - The transport's methods that take a mutex hold it from entry to
      return, so each is one atomic step on the transport's fields; what the
      stream layer, the codec and the channels answer is an input of the
      call, and the calls made on them are recorded in a trace. Logging is
      left out, but for the error records of the two inbound loops, which
      are what the loops return. *)

From stdpp Require Import gmap strings list fin_maps.

Local Open Scope Z_scope.

(* ===================================================================== *)
(** ** Go integers and run-time outcomes *)
(* ===================================================================== *)

Definition int_min : Z := - 2 ^ 63.
Definition int_max : Z := 2 ^ 63 - 1.

(** A value of Go's [int]. *)
Definition is_int (z : Z) : Prop := int_min <= z <= int_max.

(** Two's complement wrap-around of a 64-bit signed result. *)
Definition wrap (z : Z) : Z := (z + 2 ^ 63) mod 2 ^ 64 - 2 ^ 63.

Definition int_add (a b : Z) : Z := wrap (a + b).
Definition int_sub (a b : Z) : Z := wrap (a - b).
Definition int_mul (a b : Z) : Z := wrap (a * b).

(** [len(s)] of a slice. *)
Definition len {T : Type} (s : list T) : Z := Z.of_nat (length s).

(** The run-time panics the modelled code can raise. *)
Inductive panic : Type :=
  | MakeCapOutOfRange      (* makeslice: cap out of range *)
  | SliceBoundsOutOfRange  (* s[low:] with low < 0 or low > len(s) *)
  | IndexOutOfRange        (* s[i] with i < 0 or i >= len(s) *)
  | NilDereference         (* a method call through a nil pointer *)
  | CloseOfClosedChannel.  (* close(ch) on a closed channel *)

Inductive outcome (T : Type) : Type :=
  | Done (t : T)
  | Panic (p : panic)
  | Blocked.

Arguments Done {T} t.
Arguments Panic {T} p.
Arguments Blocked {T}.

Definition obind {T U : Type} (o : outcome T) (k : T -> outcome U) : outcome U :=
  match o with
  | Done t => k t
  | Panic p => Panic p
  | Blocked => Blocked
  end.

(** [s[i]]: the element, or nothing when the index is out of range. *)
Definition index_at {T : Type} (s : list T) (i : Z) : option T :=
  if i <? 0 then None else s !! Z.to_nat i.

(** [make([]T, 0, c)] succeeds for a capacity that is not negative (the
    allocator's upper limit on a capacity is left out of the model). *)
Definition make_ok (c : Z) : bool := 0 <=? c.

(** [s[low:]] is in bounds. *)
Definition slice_from_ok {T : Type} (s : list T) (low : Z) : bool :=
  (0 <=? low) && (low <=? len s).

(* ===================================================================== *)
(** ** common/rolling_list.go *)
(* ===================================================================== *)

Module common.

Inductive error : Type :=
  | ErrKeyNotFound   (* errors.New("not found") *)
  | ErrTooLate.      (* errors.New("too late") *)

Section RollingList.

Context {A : Type}.   (* the values held in an interface{} slot *)

Record RollingList : Type := mkRollingList {
  size : Z;
  tot : Z;
  items : list A;
}.

(** [NewRollingList]: the only effect that can fail is the [make] with
    capacity [2*size]. *)
Definition NewRollingList (size : Z) : outcome RollingList :=
  if make_ok (int_mul 2 size)
  then Done {| size := size; tot := 0; items := [] |}
  else Panic MakeCapOutOfRange.

Definition Get (r : RollingList) : list A * Z := (items r, tot r).

(** The local [oldestCached] of [GetItem]. *)
Definition oldestCached (r : RollingList) : Z := int_sub (tot r) (len (items r)).

(** [GetItem] returns the pair [(interface{}, error)]; [None] is [nil]. *)
Definition GetItem (r : RollingList) (index : Z) : outcome (option A * option error) :=
  let n := len (items r) in
  let oldest := oldestCached r in
  if index <? oldest then Done (None, Some ErrTooLate)
  else
    let findex := int_sub index oldest in
    if findex >=? n then Done (None, Some ErrKeyNotFound)
    else match index_at (items r) findex with
         | Some x => Done (Some x, None)
         | None => Panic IndexOutOfRange
         end.

(** [Roll]: a fresh slice holding [r.items[r.size:]]. *)
Definition Roll (r : RollingList) : outcome RollingList :=
  if make_ok (int_mul 2 (size r)) then
    if slice_from_ok (items r) (size r)
    then Done {| size := size r; tot := tot r;
                 items := drop (Z.to_nat (size r)) (items r) |}
    else Panic SliceBoundsOutOfRange
  else Panic MakeCapOutOfRange.

(** The guard of [Add]: [len(r.items) >= 2*r.size]. *)
Definition needs_roll (r : RollingList) : bool :=
  len (items r) >=? int_mul 2 (size r).

Definition Add (r : RollingList) (item : A) : outcome RollingList :=
  obind (if needs_roll r then Roll r else Done r) (fun r1 =>
  Done {| size := size r1; tot := int_add (tot r1) 1;
          items := items r1 ++ [item] |}).

(** A sequence of [Add] calls, oldest first. *)
Fixpoint AddAll (r : RollingList) (xs : list A) : outcome RollingList :=
  match xs with
  | [] => Done r
  | x :: xs' => obind (Add r x) (fun r1 => AddAll r1 xs')
  end.

(** For each [Add] of the sequence, whether it called [Roll]. *)
Fixpoint roll_trace (r : RollingList) (xs : list A) : list bool :=
  match xs with
  | [] => []
  | x :: xs' =>
      needs_roll r ::
      match Add r x with
      | Done r1 => roll_trace r1 xs'
      | _ => []
      end
  end.

(** The states the methods keep to: the buffer never holds more items than
    were ever appended, and [tot] has not overflowed. *)
Definition wf (r : RollingList) : Prop :=
  len (items r) <= tot r /\ tot r <= int_max.

(** After the items [seen] were appended to a list of size [S]: the buffer
    is a suffix of [seen] of at most [2*S] items and [tot] counts [seen]. *)
Definition window (S : Z) (seen : list A) (r : RollingList) : Prop :=
  size r = S /\ tot r = len seen /\ len (items r) <= 2 * S /\
  exists old, seen = old ++ items r.

End RollingList.

Arguments RollingList A : clear implicits.

(** The items of the specification's example run: 0 through 6. *)
Definition seven : list Z := [0; 1; 2; 3; 4; 5; 6].

End common.

(* ===================================================================== *)
(** ** net/net_transport.go *)
(* ===================================================================== *)

Module net.

(** [rpcSync uint8 = iota]. *)
Definition rpcSync : Z := 0.

(** Go [error] values the transport handles: its own two sentinels, [io.EOF],
    the values built by [fmt.Errorf], and errors handed over by the stream
    layer, the gob codec or the consumer, known by their message only. *)
Inductive error : Type :=
  | ErrTransportShutdown                         (* "transport shutdown" *)
  | ErrPipelineShutdown                          (* "append pipeline closed" *)
  | EOF
  | Errorf (format : string) (operands : list Z)
  | ExternalError (msg : string).

(** The identity of one [net.Conn] of the stream layer. *)
Definition conn_id : Type := nat.

(** [netConn]: the reader, writer, decoder and encoder wrap [conn] and have
    no state of their own in the model. *)
Record netConn : Type := mkNetConn {
  target : string;
  conn : conn_id;
}.

(** What a [select] over one communication and [<-n.shutdownCh] does: the
    communication proceeds, the shutdown signal is received, or neither ever
    becomes ready. *)
Inductive select_result (T : Type) : Type :=
  | Selected (t : T)
  | ShutdownSeen
  | NeverReady.

Arguments Selected {T} t.
Arguments ShutdownSeen {T}.
Arguments NeverReady {T}.

Section Transport.

(** The payload types and [fmt]'s formatting live outside this file. *)
Context {SyncRequest SyncResponse : Type}.
Variable Sprintf : string -> list Z -> string.

(** [err.Error()]. *)
Definition Error_msg (e : error) : string :=
  match e with
  | ErrTransportShutdown => "transport shutdown"
  | ErrPipelineShutdown => "append pipeline closed"
  | EOF => "EOF"
  | Errorf format operands => Sprintf format operands
  | ExternalError msg => msg
  end.

(** Modelled from the spec: the declaration of [RPCResponse] (it is not in
    this file of the package): "pairs an opaque response value with an
    optional error". *)
Record RPCResponse : Type := mkRPCResponse {
  Response : SyncResponse;
  Error : option error;
}.

(** The calls the transport makes on its collaborators (stream layer,
    connections, codec, consumer channel), in the order it makes them. *)
Inductive event : Type :=
  | EvStreamClose
  | EvDial (tgt : string) (timeout : Z)
  | EvSetDeadline (c : conn_id) (timeout : Z)
  | EvWriteByte (c : conn_id) (b : Z)
  | EvEncodeArgs (c : conn_id) (args : SyncRequest)
  | EvFlush (c : conn_id)
  | EvDecodeString (c : conn_id)
  | EvDecodeResp (c : conn_id)
  | EvConnClose (c : conn_id)
  | EvReadByte (c : conn_id)
  | EvDecodeReq (c : conn_id)
  | EvDispatch (cmd : SyncRequest)
  | EvEncodeString (c : conn_id) (s : string)
  | EvEncodeResponse (c : conn_id) (v : SyncResponse).

(** The mutable fields of [NetworkTransport]. [shutdownCh] is [true] once
    the channel is closed (nothing is ever sent on it). *)
Record NetworkTransport : Type := mkTransport {
  connPool : gmap string (list netConn);
  maxPool : Z;
  shutdown : bool;
  shutdownCh : bool;
  timeout : Z;
}.

Record world : Type := mkWorld {
  nt : NetworkTransport;
  trace : list event;
}.

Definition set_connPool (p : gmap string (list netConn)) (n : NetworkTransport) :=
  {| connPool := p; maxPool := maxPool n; shutdown := shutdown n;
     shutdownCh := shutdownCh n; timeout := timeout n |}.

Definition set_shutdown (b : bool) (n : NetworkTransport) :=
  {| connPool := connPool n; maxPool := maxPool n; shutdown := b;
     shutdownCh := shutdownCh n; timeout := timeout n |}.

Definition set_shutdownCh (b : bool) (n : NetworkTransport) :=
  {| connPool := connPool n; maxPool := maxPool n; shutdown := shutdown n;
     shutdownCh := b; timeout := timeout n |}.

(** *** The monad of transport code: state, trace and run-time outcome *)

Definition M (T : Type) : Type := world -> outcome (T * world).

Definition ret {T : Type} (t : T) : M T := fun w => Done (t, w).

Definition bind {T U : Type} (m : M T) (k : T -> M U) : M U :=
  fun w => match m w with
           | Done (t, w1) => k t w1
           | Panic p => Panic p
           | Blocked => Blocked
           end.

Definition get : M NetworkTransport := fun w => Done (nt w, w).

Definition put (n : NetworkTransport) : M unit :=
  fun w => Done (tt, {| nt := n; trace := trace w |}).

Definition emit (e : event) : M unit :=
  fun w => Done (tt, {| nt := nt w; trace := trace w ++ [e] |}).

Definition raise {T : Type} (p : panic) : M T := fun _ => Panic p.

Definition block {T : Type} : M T := fun _ => Blocked.

Notation "x <- m ;; k" := (bind m (fun x => k))
  (at level 20, m at level 99, k at level 200, right associativity,
   only parsing).
Notation "m ;; k" := (bind m (fun _ => k))
  (at level 100, k at level 200, right associativity, only parsing).

(** *** Construction and shutdown *)

(** [NewNetworkTransport]; the accept loop it starts is not part of the
    model. *)
Definition NewNetworkTransport (maxPool timeout : Z) : world :=
  {| nt := {| connPool := ∅; maxPool := maxPool; shutdown := false;
              shutdownCh := false; timeout := timeout |};
     trace := [] |}.

(** [close(n.shutdownCh)]. *)
Definition close_shutdownCh : M unit :=
  n <- get ;;
  if shutdownCh n then raise CloseOfClosedChannel
  else put (set_shutdownCh true n).

Definition Close : M (option error) :=
  n <- get ;;
  (if negb (shutdown n) then
     close_shutdownCh ;;
     emit EvStreamClose ;;
     n1 <- get ;;
     put (set_shutdown true n1)
   else ret tt) ;;
  ret None.

(** A receive from [shutdownCh] with a [default] case. *)
Definition IsShutdown : M bool :=
  n <- get ;;
  ret (shutdownCh n).

(** *** The connection pool *)

(** [netConn.Release]: closes the connection; no caller reads its result. *)
Definition Release (c : netConn) : M unit := emit (EvConnClose (conn c)).

(** [getPooledConn] pops the last idle connection of [tgt]. The write of
    [nil] into the freed slot of the backing array is seen by no other
    slice and is left out. *)
Definition getPooledConn (tgt : string) : M (option netConn) :=
  n <- get ;;
  match connPool n !! tgt with
  | None => ret None
  | Some conns =>
      let num := length conns in
      if (num =? 0)%nat then ret None
      else match conns !! (num - 1)%nat with
           | None => raise IndexOutOfRange
           | Some c =>
               put (set_connPool (<[tgt := take (num - 1)%nat conns]> (connPool n)) n) ;;
               ret (Some c)
           end
  end.

(** [getConn]; [dial_r] is what [stream.Dial] answers if it is called. *)
Definition getConn (tgt : string) (timeout : Z) (dial_r : error + conn_id)
  : M (option netConn * option error) :=
  pooled <- getPooledConn tgt ;;
  match pooled with
  | Some c => ret (Some c, None)
  | None =>
      emit (EvDial tgt timeout) ;;
      match dial_r with
      | inl err => ret (None, Some err)
      | inr c => ret (Some {| target := tgt; conn := c |}, None)
      end
  end.

Definition returnConn (c : netConn) : M unit :=
  n <- get ;;
  let key := target c in
  let conns := default [] (connPool n !! key) in
  down <- IsShutdown ;;
  if negb down && (len conns <? maxPool n)
  then put (set_connPool (<[key := conns ++ [c]]> (connPool n)) n)
  else Release c.

(** *** The outbound call path *)

(** What the stream layer and the codec answer during one outbound call:
    each field is the result of the call named, were it to be made. *)
Record rpc_io : Type := mkRpcIo {
  dial_r : error + conn_id;            (* n.stream.Dial *)
  writeByte_r : option error;          (* conn.w.WriteByte *)
  encode_r : option error;             (* conn.enc.Encode(args) *)
  flush_r : option error;              (* conn.w.Flush *)
  decodeErr_r : error + string;        (* conn.dec.Decode(&rpcError) *)
  decodeResp_r : error + SyncResponse; (* conn.dec.Decode(resp) *)
}.

Definition sendRPC (c : netConn) (rpcType : Z) (args : SyncRequest) (io : rpc_io)
  : M (option error) :=
  emit (EvWriteByte (conn c) rpcType) ;;
  match writeByte_r io with
  | Some err => Release c ;; ret (Some err)
  | None =>
      emit (EvEncodeArgs (conn c) args) ;;
      match encode_r io with
      | Some err => Release c ;; ret (Some err)
      | None =>
          emit (EvFlush (conn c)) ;;
          match flush_r io with
          | Some err => Release c ;; ret (Some err)
          | None => ret None
          end
      end
  end.

(** [decodeResponse] returns [(canReturn, err)]; the third component is the
    value [*resp] holds afterwards ([resp0] before; a decode that fails is
    taken to leave it as it was). *)
Definition decodeResponse (c : netConn) (resp0 : SyncResponse) (io : rpc_io)
  : M (bool * option error * SyncResponse) :=
  emit (EvDecodeString (conn c)) ;;
  match decodeErr_r io with
  | inl err => Release c ;; ret (false, Some err, resp0)
  | inr rpcError =>
      emit (EvDecodeResp (conn c)) ;;
      match decodeResp_r io with
      | inl err => Release c ;; ret (false, Some err, resp0)
      | inr v =>
          if negb (String.eqb rpcError EmptyString)
          then ret (true, Some (Errorf rpcError []), v)
          else ret (true, None, v)
      end
  end.

(** [genericRPC] returns the error and the final content of [*resp]. A
    [nil] connection next to a [nil] error cannot come out of [getConn];
    dereferencing it would panic. *)
Definition genericRPC (tgt : string) (rpcType : Z) (args : SyncRequest)
    (resp0 : SyncResponse) (io : rpc_io) : M (option error * SyncResponse) :=
  n <- get ;;
  got <- getConn tgt (timeout n) (dial_r io) ;;
  match got with
  | (_, Some err) => ret (Some err, resp0)
  | (None, None) => raise NilDereference
  | (Some c, None) =>
      (if 0 <? timeout n
       then emit (EvSetDeadline (conn c) (timeout n))
       else ret tt) ;;
      sent <- sendRPC c rpcType args io ;;
      match sent with
      | Some err => ret (Some err, resp0)
      | None =>
          decoded <- decodeResponse c resp0 io ;;
          let '(canReturn, err, v) := decoded in
          (if canReturn then returnConn c else ret tt) ;;
          ret (err, v)
      end
  end.

Definition Sync (tgt : string) (args : SyncRequest) (resp0 : SyncResponse)
    (io : rpc_io) : M (option error * SyncResponse) :=
  genericRPC tgt rpcSync args resp0 io.

(** *** The inbound command handler *)

(** What the connection, the codec, the consumer and the shutdown signal
    answer during one [handleCommand]. *)
Record handler_io : Type := mkHandlerIo {
  readByte_r : error + Z;                      (* r.ReadByte *)
  decodeReq_r : error + SyncRequest;           (* dec.Decode(&req) *)
  dispatch_r : select_result unit;             (* n.consumeCh <- rpc *)
  reply_r : select_result RPCResponse;         (* <-respCh *)
  encodeErr_r : option error;                  (* enc.Encode(respErr) *)
  encodeResp_r : option error;                 (* enc.Encode(resp.Response) *)
}.

(** [handleCommand] on the reader, decoder and encoder of connection [c]. *)
Definition handleCommand (c : conn_id) (io : handler_io) : M (option error) :=
  emit (EvReadByte c) ;;
  match readByte_r io with
  | inl err => ret (Some err)
  | inr rpcType =>
      if rpcType =? rpcSync then
        emit (EvDecodeReq c) ;;
        match decodeReq_r io with
        | inl err => ret (Some err)
        | inr req =>
            match dispatch_r io with
            | NeverReady => block
            | ShutdownSeen => ret (Some ErrTransportShutdown)
            | Selected _ =>
                emit (EvDispatch req) ;;
                match reply_r io with
                | NeverReady => block
                | ShutdownSeen => ret (Some ErrTransportShutdown)
                | Selected resp =>
                    let respErr := match Error resp with
                                   | Some e => Error_msg e
                                   | None => EmptyString
                                   end in
                    emit (EvEncodeString c respErr) ;;
                    match encodeErr_r io with
                    | Some err => ret (Some err)
                    | None =>
                        emit (EvEncodeResponse c (Response resp)) ;;
                        match encodeResp_r io with
                        | Some err => ret (Some err)
                        | None => ret None
                        end
                    end
                end
            end
        end
      else ret (Some (Errorf "unknown rpc type %d" [rpcType]))
  end.

(** The flag and the signal agree: every state [Close] leaves, and the one
    [NewNetworkTransport] builds. *)
Definition consistent (w : world) : Prop := shutdown (nt w) = shutdownCh (nt w).

(** [w1] has the shutdown flag and signal of [w]. *)
Definition same_flags (w w1 : world) : Prop :=
  shutdown (nt w1) = shutdown (nt w) /\ shutdownCh (nt w1) = shutdownCh (nt w).

(** How many times connection [c] was closed in a trace. *)
Fixpoint closes (c : conn_id) (tr : list event) : nat :=
  match tr with
  | [] => 0%nat
  | EvConnClose c1 :: tr1 => ((if (c1 =? c)%nat then 1 else 0) + closes c tr1)%nat
  | _ :: tr1 => closes c tr1
  end.

(** The state after [Close] ran on a transport that was not shut down. *)
Definition closed_world (w : world) : world :=
  {| nt := set_shutdown true (set_shutdownCh true (nt w));
     trace := trace w ++ [EvStreamClose] |}.

(** The state with another pool. *)
Definition with_pool (p : gmap string (list netConn)) (w : world) : world :=
  {| nt := set_connPool p (nt w); trace := trace w |}.

(** The calls made on connection [c] by a round trip in which no call
    fails, with the I/O timeout [to]. *)
Definition round_trip_events (c : netConn) (rpcType : Z) (args : SyncRequest)
    (to : Z) : list event :=
  (if 0 <? to then [EvSetDeadline (conn c) to] else []) ++
  [EvWriteByte (conn c) rpcType; EvEncodeArgs (conn c) args; EvFlush (conn c);
   EvDecodeString (conn c); EvDecodeResp (conn c)].

(** The error [decodeResponse] makes of a decoded error string. *)
Definition rpc_error (rpcError : string) : option error :=
  if negb (String.eqb rpcError EmptyString)
  then Some (Errorf rpcError [])
  else None.

(** Every call of the whole round trip succeeds. *)
Definition round_trip_ok (io : rpc_io) : bool :=
  match writeByte_r io, encode_r io, flush_r io, decodeErr_r io, decodeResp_r io with
  | None, None, None, inr _, inr _ => true
  | _, _, _, _, _ => false
  end.

(** *** The inbound loops *)

(** A record written to the logger at error level: its message and its
    [error] field. *)
Inductive log_entry : Type :=
  | LogError (msg : string) (err : error).

(** The loop of [handleConn] on connection [c]. [script] holds, iteration
    by iteration, what [handleCommand] is answered and what [w.Flush]
    returns; past the script the next [ReadByte] never returns. The result
    is what the loop logged. *)
Fixpoint handleConn_loop (c : conn_id) (script : list (handler_io * option error))
  : M (list log_entry) :=
  match script with
  | [] => block
  | (io, flushed) :: rest =>
      err <- handleCommand c io ;;
      match err with
      | Some e =>
          ret (match e with
               | EOF => []
               | _ => [LogError "Failed to decode incoming command" e]
               end)
      | None =>
          emit (EvFlush c) ;;
          match flushed with
          | Some e => ret [LogError "Failed to flush response" e]
          | None => handleConn_loop c rest
          end
      end
  end.

(** [handleConn]: the loop, then the deferred [conn.Close()]. *)
Definition handleConn (c : conn_id) (script : list (handler_io * option error))
  : M (list log_entry) :=
  logged <- handleConn_loop c script ;;
  emit (EvConnClose c) ;;
  ret logged.

(** What one iteration of [listen] did: started a handler for an accepted
    connection, or logged a failed [Accept]. *)
Inductive accept_action : Type :=
  | Spawned (c : conn_id)
  | AcceptFailed (err : error).

(** [listen] returned, or waits in an [Accept] that is not answered. *)
Inductive listen_result : Type :=
  | Returned (did : list accept_action)
  | Waiting (did : list accept_action).

Definition and_then (a : accept_action) (r : listen_result) : listen_result :=
  match r with
  | Returned did => Returned (a :: did)
  | Waiting did => Waiting (a :: did)
  end.

(** [listen]; [script] holds what [n.stream.Accept] answers, call by call. *)
Fixpoint listen (script : list (error + conn_id)) : M listen_result :=
  match script with
  | [] => ret (Waiting [])
  | inl err :: rest =>
      down <- IsShutdown ;;
      if down then ret (Returned [])
      else
        r <- listen rest ;;
        ret (and_then (AcceptFailed err) r)
  | inr c :: rest =>
      r <- listen rest ;;
      ret (and_then (Spawned c) r)
  end.

(** *** Sequences of calls on one transport *)

Inductive call : Type :=
  | CallClose
  | CallSync (tgt : string) (args : SyncRequest) (resp0 : SyncResponse) (io : rpc_io).

Fixpoint run_calls (cs : list call) : M unit :=
  match cs with
  | [] => ret tt
  | CallClose :: rest => Close ;; run_calls rest
  | CallSync tgt args resp0 io :: rest => Sync tgt args resp0 io ;; run_calls rest
  end.

Definition is_close (c : call) : bool :=
  match c with CallClose => true | _ => false end.

(** The connections the stream layer would hand to the calls' dials. *)
Fixpoint dial_ids (cs : list call) : list conn_id :=
  match cs with
  | [] => []
  | CallSync _ _ _ io :: rest =>
      match dial_r io with
      | inr k => k :: dial_ids rest
      | inl _ => dial_ids rest
      end
  | CallClose :: rest => dial_ids rest
  end.

(** *** Counting in traces, and the invariants of the pool *)

Definition count_events (p : event -> bool) (tr : list event) : nat :=
  length (List.filter p tr).

Definition is_stream_close (e : event) : bool :=
  match e with EvStreamClose => true | _ => false end.

Definition is_deadline (e : event) : bool :=
  match e with EvSetDeadline _ _ => true | _ => false end.

Definition is_dial (e : event) : bool :=
  match e with EvDial _ _ => true | _ => false end.



(** The idle connections of a target. *)
Definition idle (w : world) (tgt : string) : list netConn :=
  default [] (connPool (nt w) !! tgt).

(** No target has more than [maxPool] idle connections. *)
Definition pool_bounded (w : world) : Prop :=
  forall tgt, len (idle w tgt) <= Z.max 0 (maxPool (nt w)).

(** Every idle connection is filed under its own target. *)
Definition pool_keyed (w : world) : Prop :=
  forall tgt c, c ∈ idle w tgt -> target c = tgt.

(** No idle connection was closed, none is idle twice, and no connection
    was closed twice. *)
Definition pool_open (w : world) : Prop :=
  forall tgt c, c ∈ idle w tgt -> closes (conn c) (trace w) = 0%nat.

Definition pool_distinct (w : world) : Prop :=
  forall t1 t2 (i j : nat) c1 c2,
    idle w t1 !! i = Some c1 -> idle w t2 !! j = Some c2 ->
    conn c1 = conn c2 -> t1 = t2 /\ i = j.

Definition closed_once (w : world) : Prop :=
  forall k, (closes k (trace w) <= 1)%nat.

(** The connections [ids], not handed out yet, are neither closed nor
    idle. *)
Definition fresh_ids (w : world) (ids : list conn_id) : Prop :=
  forall j, j ∈ ids ->
    closes j (trace w) = 0%nat /\ forall tgt c, c ∈ idle w tgt -> conn c <> j.

(** The pool holds open connections, each once; nothing was closed twice;
    the connections to come are new. *)
Definition conns_sound (w : world) (ids : list conn_id) : Prop :=
  pool_open w /\ pool_distinct w /\ closed_once w /\ fresh_ids w ids.

(** The events of one command served without failure, and the answers
    that make it so. *)
Definition served_events (c : conn_id) (req : SyncRequest) (resp : RPCResponse)
  : list event :=
  [EvReadByte c; EvDecodeReq c; EvDispatch req;
   EvEncodeString c (match Error resp with
                     | Some e => Error_msg e
                     | None => EmptyString
                     end);
   EvEncodeResponse c (Response resp); EvFlush c].

Definition served (cmd : SyncRequest * RPCResponse) : handler_io * option error :=
  ({| readByte_r := inr rpcSync; decodeReq_r := inr (fst cmd);
      dispatch_r := Selected tt; reply_r := Selected (snd cmd);
      encodeErr_r := None; encodeResp_r := None |}, None).

End Transport.

Arguments RPCResponse SyncResponse : clear implicits.
Arguments event SyncRequest SyncResponse : clear implicits.
Arguments world SyncRequest SyncResponse : clear implicits.
Arguments M SyncRequest SyncResponse T : clear implicits.
Arguments rpc_io SyncResponse : clear implicits.
Arguments handler_io SyncRequest SyncResponse : clear implicits.
Arguments call SyncRequest SyncResponse : clear implicits.

(** The transport of the instances further down, as constructed and shut
    down; a round trip to "peer" that succeeds on the dialed connection 7;
    and a formatting that returns its format. *)
Definition fresh_transport : world unit unit := NewNetworkTransport 3 0.

Definition shut_transport : world unit unit := closed_world fresh_transport.

Definition peer_io : rpc_io unit :=
  mkRpcIo (inr 7%nat) None None None (inr EmptyString) (inr tt).

Definition plain_format (format : string) (operands : list Z) : string := format.

(** The two transports once a call has dialed "peer". *)
Definition fresh_dialed : world unit unit :=
  {| nt := nt fresh_transport; trace := [EvDial "peer" 0] |}.

Definition shut_dialed : world unit unit :=
  {| nt := nt shut_transport; trace := [EvStreamClose; EvDial "peer" 0] |}.

End net.

(* ===================================================================== *)
(** ** Facts about Go integers *)
(* ===================================================================== *)

Lemma wrap_id (z : Z) : is_int z -> wrap z = z.
Proof.
  unfold is_int, int_min, int_max, wrap. intros Hz.
  rewrite Z.mod_small by lia. lia.
Qed.

Lemma len_nonneg {T : Type} (s : list T) : 0 <= len s.
Proof. unfold len. lia. Qed.

Lemma len_app {T : Type} (s t : list T) : len (s ++ t) = len s + len t.
Proof. unfold len. rewrite length_app. lia. Qed.

Lemma len_snoc {T : Type} (s : list T) (x : T) : len (s ++ [x]) = len s + 1.
Proof. unfold len. rewrite length_app. simpl. lia. Qed.

Lemma len_drop {T : Type} (s : list T) (k : Z) :
  0 <= k <= len s -> len (drop (Z.to_nat k) s) = len s - k.
Proof. unfold len. intros Hk. rewrite length_drop. lia. Qed.

Lemma index_at_lt {T : Type} (s : list T) (i : Z) :
  0 <= i < len s -> exists x, index_at s i = Some x /\ s !! Z.to_nat i = Some x.
Proof.
  unfold index_at, len. intros Hi.
  destruct (lookup_lt_is_Some_2 s (Z.to_nat i)) as [x Hx]; [lia|].
  exists x. split; [|done].
  destruct (Z.ltb_spec i 0); [lia|done].
Qed.

(** Doubling a size that [make] accepted did not overflow. *)
Lemma double_of_nonneg (s : Z) :
  is_int s -> 0 <= s -> make_ok (int_mul 2 s) = true -> int_mul 2 s = 2 * s.
Proof.
  unfold is_int, int_min, int_max, make_ok, int_mul, wrap.
  intros Hs Hs0 Hok. apply Z.leb_le in Hok.
  destruct (Z.lt_ge_cases s (2 ^ 62)) as [Hlt|Hge].
  - rewrite Z.mod_small by lia. lia.
  - exfalso.
    replace (2 * s + 2 ^ 63) with ((2 * s - 2 ^ 63) + 1 * 2 ^ 64) in Hok by lia.
    rewrite Z.mod_add in Hok by lia.
    rewrite Z.mod_small in Hok by lia. lia.
Qed.

(* ===================================================================== *)
(** ** RollingList: lookup *)
(* ===================================================================== *)

Section RollingListFacts.

Import common.
Context {A : Type}.
Implicit Types (r : RollingList A) (xs : list A).

Lemma oldestCached_exact r : wf r -> oldestCached r = tot r - len (items r).
Proof.
  unfold wf, oldestCached, int_sub. intros [Hle Hmax].
  pose proof (len_nonneg (items r)).
  apply wrap_id. unfold is_int, int_min, int_max in *. lia.
Qed.

(** The constructor and the two mutators keep to [wf], as long as [tot]
    has room for one more. *)
Lemma wf_new (S : Z) r : NewRollingList S = Done r -> wf r.
Proof.
  unfold NewRollingList. destruct (make_ok (int_mul 2 S)); [|done].
  intros [= <-]. unfold wf, len, int_max. simpl. lia.
Qed.

Lemma wf_Roll r r1 : wf r -> Roll r = Done r1 -> wf r1.
Proof.
  unfold Roll, wf. intros [Hle Hmax].
  destruct (make_ok (int_mul 2 (size r))); [|done].
  destruct (slice_from_ok (items r) (size r)) eqn:Hin; [|done].
  intros [= <-]. simpl. split; [|done].
  unfold len in *. rewrite length_drop. lia.
Qed.

Lemma wf_Add r r1 (x : A) : wf r -> tot r < int_max -> Add r x = Done r1 -> wf r1.
Proof.
  unfold Add. intros Hwf Hroom.
  destruct (needs_roll r).
  - destruct (Roll r) as [r2| |] eqn:Hroll; [|done..].
    pose proof (wf_Roll r r2 Hwf Hroll) as [Hle Hmax].
    assert (Htot : tot r2 = tot r).
    { unfold Roll in Hroll.
      destruct (make_ok (int_mul 2 (size r))); [|done].
      destruct (slice_from_ok (items r) (size r)); [|done].
      by injection Hroll as <-. }
    simpl. intros [= <-]. unfold wf. simpl.
    pose proof (len_nonneg (items r2)).
    rewrite len_snoc. unfold int_add. rewrite wrap_id;
      unfold is_int, int_min, int_max in *; lia.
  - destruct Hwf as [Hle Hmax]. simpl. intros [= <-]. unfold wf. simpl.
    pose proof (len_nonneg (items r)).
    rewrite len_snoc. unfold int_add. rewrite wrap_id;
      unfold is_int, int_min, int_max in *; lia.
Qed.

(** C1. In a state the methods keep to, and for every [int] index,
    [GetItem] computes [oldestCached = tot - len(items)]; it returns
    [ErrTooLate] exactly when [index < oldestCached], [ErrKeyNotFound]
    exactly when [index - oldestCached >= len(items)], and otherwise the
    buffered item at offset [index - oldestCached] with a [nil] error. *)
Theorem GetItem_spec r (index : Z) :
  wf r -> is_int index ->
  oldestCached r = tot r - len (items r) /\
  (GetItem r index = Done (None, Some ErrTooLate)
     <-> index < tot r - len (items r)) /\
  (GetItem r index = Done (None, Some ErrKeyNotFound)
     <-> index - (tot r - len (items r)) >= len (items r)) /\
  (tot r - len (items r) <= index ->
   index - (tot r - len (items r)) < len (items r) ->
   exists x, items r !! Z.to_nat (index - (tot r - len (items r))) = Some x /\
             GetItem r index = Done (Some x, None)).
Proof.
  intros Hwf Hidx.
  pose proof (oldestCached_exact r Hwf) as Hold.
  pose proof (len_nonneg (items r)) as Hlen.
  destruct Hwf as [Hle Hmax].
  unfold GetItem. rewrite Hold.
  set (oldest := tot r - len (items r)) in *.
  split; [done|].
  destruct (Z.ltb_spec index oldest) as [Hlate|Hnot].
  - repeat split; intros; try done; lia.
  - assert (Hsub : int_sub index oldest = index - oldest).
    { apply wrap_id. unfold is_int, int_min, int_max in *. lia. }
    rewrite Hsub.
    unfold Z.geb. destruct (Z.compare_spec (index - oldest) (len (items r))) as [He|Hl|Hg].
    + repeat split; intros; try done; lia.
    + destruct (index_at_lt (items r) (index - oldest)) as (x & Hx & Hlk); [lia|].
      rewrite Hx.
      repeat split; intros; try done; try lia.
      exists x. done.
    + repeat split; intros; try done; lia.
Qed.

(** The in-window case of [GetItem], for the proofs below. *)
Lemma GetItem_hit r (index : Z) :
  wf r -> tot r - len (items r) <= index < tot r ->
  exists x, items r !! Z.to_nat (index - (tot r - len (items r))) = Some x /\
            GetItem r index = Done (Some x, None).
Proof.
  intros Hwf Hin.
  pose proof (oldestCached_exact r Hwf) as Hold.
  pose proof (len_nonneg (items r)) as Hlen.
  destruct Hwf as [Hle Hmax].
  unfold GetItem. rewrite Hold.
  set (oldest := tot r - len (items r)) in *.
  destruct (Z.ltb_spec index oldest) as [Hlate|_]; [lia|].
  assert (Hsub : int_sub index oldest = index - oldest).
  { apply wrap_id. unfold is_int, int_min, int_max in *. lia. }
  rewrite Hsub.
  destruct (Z.geb_spec (index - oldest) (len (items r))) as [Hge|_]; [lia|].
  destruct (index_at_lt (items r) (index - oldest)) as (x & Hx & Hlk); [lia|].
  rewrite Hx. by exists x.
Qed.

(* ===================================================================== *)
(** ** RollingList: the window kept by [Add] *)
(* ===================================================================== *)

Lemma window_new (S : Z) r0 :
  0 <= S -> NewRollingList S = Done r0 -> window S [] r0.
Proof.
  unfold NewRollingList. intros HS Hnew.
  destruct (make_ok (int_mul 2 S)); [|done].
  injection Hnew as <-. unfold window, len. simpl.
  repeat split; [lia|]. by exists [].
Qed.

Lemma new_make_ok (S : Z) r0 :
  NewRollingList (A:=A) S = Done r0 -> make_ok (int_mul 2 S) = true.
Proof. unfold NewRollingList. by destruct (make_ok (int_mul 2 S)). Qed.

Lemma window_wf (S : Z) seen r :
  len seen <= int_max -> window S seen r -> wf r.
Proof.
  intros Hmax (_ & Htot & _ & old & Hold). unfold wf.
  rewrite Htot. split; [|done].
  rewrite Hold, len_app. pose proof (len_nonneg old). lia.
Qed.

(** A [Roll] called under the guard of [Add] keeps the newest [S] items. *)
Lemma window_roll (S : Z) seen r :
  is_int S -> 1 <= S -> make_ok (int_mul 2 S) = true ->
  window S seen r -> needs_roll r = true ->
  exists r1, Roll r = Done r1 /\ size r1 = S /\ tot r1 = tot r /\
             len (items r1) = S /\
             items r1 = drop (length seen - Z.to_nat S) seen.
Proof.
  intros HiS HS Hok (Hsz & Htot & Hlen & old & Hold) Hroll.
  unfold needs_roll in Hroll. rewrite Hsz, double_of_nonneg in Hroll by (done || lia).
  apply Z.geb_le in Hroll.
  unfold Roll. rewrite Hsz, Hok.
  unfold slice_from_ok.
  destruct (Z.leb_spec 0 S); [|lia].
  destruct (Z.leb_spec S (len (items r))); [|lia]. simpl.
  eexists. split; [done|]. simpl.
  split; [done|]. split; [done|]. split.
  { rewrite len_drop by lia. lia. }
  subst seen. rewrite drop_app, length_app.
  assert (Hn : (length old + length (items r) - Z.to_nat S = length old + Z.to_nat S)%nat)
    by (unfold len in *; lia).
  rewrite Hn, (drop_ge old) by lia.
  unfold len in *.
  replace (length old + Z.to_nat S - length old)%nat with (Z.to_nat S) by lia.
  done.
Qed.

Lemma window_add (S : Z) seen r (x : A) :
  is_int S -> 1 <= S -> make_ok (int_mul 2 S) = true ->
  len seen < int_max -> window S seen r ->
  exists r1, Add r x = Done r1 /\ window S (seen ++ [x]) r1.
Proof.
  intros HiS HS Hok Hmax Hwin.
  pose proof Hwin as (Hsz & Htot & Hlen & old & Hold).
  assert (Hinc : int_add (tot r) 1 = len (seen ++ [x])).
  { rewrite len_snoc, Htot. apply wrap_id. pose proof (len_nonneg seen).
    unfold is_int, int_min, int_max in *. lia. }
  unfold Add. destruct (needs_roll r) eqn:Hroll.
  - destruct (window_roll S seen r HiS HS Hok Hwin Hroll)
      as (r1 & -> & Hsz1 & Htot1 & Hlen1 & Hitems1).
    simpl. eexists. split; [done|].
    unfold window. simpl. rewrite Htot1.
    repeat split; [done | done | |].
    + rewrite len_snoc, Hlen1. lia.
    + exists (take (length seen - Z.to_nat S) seen).
      rewrite Hitems1, app_assoc, take_drop. done.
  - simpl. eexists. split; [done|].
    unfold window. simpl.
    unfold needs_roll in Hroll.
    rewrite Hsz, double_of_nonneg in Hroll by (done || lia).
    destruct (Z.geb_spec (len (items r)) (2 * S)); [done|].
    repeat split; [done | done | |].
    + rewrite len_snoc. lia.
    + exists old. rewrite Hold at 1. by rewrite app_assoc.
Qed.

Lemma window_AddAll (S : Z) xs : forall seen r,
  is_int S -> 1 <= S -> make_ok (int_mul 2 S) = true ->
  len (seen ++ xs) <= int_max -> window S seen r ->
  exists r1, AddAll r xs = Done r1 /\ window S (seen ++ xs) r1.
Proof.
  induction xs as [|x xs IH]; intros seen r HiS HS Hok Hmax Hwin.
  - exists r. rewrite app_nil_r. done.
  - replace (seen ++ x :: xs) with ((seen ++ [x]) ++ xs) in *
      by (by rewrite <- app_assoc).
    assert (Hlt : len seen < int_max).
    { rewrite len_app, len_snoc in Hmax. pose proof (len_nonneg xs). lia. }
    destruct (window_add S seen r x HiS HS Hok Hlt Hwin) as (r1 & Hadd & Hwin1).
    simpl. rewrite Hadd. simpl. by apply IH.
Qed.

(** C2 (amended). For a list constructed with a window size [S >= 1] and
    every sequence [xs] of [Add] calls (no longer than [int_max]): no call
    panics; [tot] counts the calls; the buffer is the last [len(items)]
    items of [xs] in order, never more than [2*S] of them, and the items
    [GetItem] serves are those with global index [tot-len(items)] through
    [tot-1]; and whenever the next [Add] compacts, the buffer [Roll] leaves
    is the newest [S] items, so its length lies in [[S, 2*S)]. *)
Theorem AddAll_window (S : Z) r0 xs :
  is_int S -> 1 <= S -> NewRollingList S = Done r0 -> len xs <= int_max ->
  exists r, AddAll r0 xs = Done r /\
    tot r = len xs /\ len (items r) <= 2 * S /\
    items r = drop (length xs - length (items r)) xs /\
    (forall i, tot r - len (items r) <= i < tot r ->
       exists x, xs !! Z.to_nat i = Some x /\ GetItem r i = Done (Some x, None)) /\
    (needs_roll r = true ->
       exists r1, Roll r = Done r1 /\ S <= len (items r1) < 2 * S /\
                  items r1 = drop (length xs - Z.to_nat S) xs).
Proof.
  intros HiS HS Hnew Hmax.
  pose proof (new_make_ok S r0 Hnew) as Hok.
  destruct (window_AddAll S xs [] r0 HiS HS Hok Hmax) as (r & Hrun & Hwin).
  { apply window_new; [lia|done]. }
  simpl in Hwin. exists r. split; [done|].
  pose proof (window_wf S xs r Hmax Hwin) as Hwf.
  pose proof Hwin as (Hsz & Htot & Hlen & old & Hold).
  split; [done|]. split; [done|]. split; [|split].
  - rewrite Hold at 2. rewrite Hold, length_app.
    replace (length old + length (items r) - length (items r))%nat
      with (length old) by lia.
    by rewrite drop_app_length.
  - intros i Hi.
    destruct (GetItem_hit r i Hwf Hi) as (x & Hx & Hget).
    exists x. split; [|done].
    assert (Hoff : tot r - len (items r) = len old).
    { rewrite Htot, Hold, len_app. lia. }
    rewrite Hoff in Hx, Hi. rewrite Hold.
    pose proof (len_nonneg old). unfold len in *.
    rewrite lookup_app_r by lia.
    replace (Z.to_nat i - length old)%nat with (Z.to_nat (i - Z.of_nat (length old))) by lia.
    done.
  - intros Hroll.
    destruct (window_roll S xs r HiS HS Hok Hwin Hroll)
      as (r1 & Hr1 & _ & _ & Hlen1 & Hitems1).
    exists r1. split; [done|]. split; [lia|done].
Qed.

(* ===================================================================== *)
(** ** RollingList: when [Roll] is safe *)
(* ===================================================================== *)

Lemma guard_in_bounds (S : Z) r :
  is_int S -> 0 <= S -> make_ok (int_mul 2 S) = true -> size r = S ->
  needs_roll r = true ->
  2 * size r <= len (items r) /\ slice_from_ok (items r) (size r) = true /\
  exists r1, Roll r = Done r1 /\ size r1 = S.
Proof.
  intros HiS HS Hok Hsz Hroll.
  unfold needs_roll in Hroll. rewrite Hsz in *.
  rewrite double_of_nonneg in Hroll by done.
  apply Z.geb_le in Hroll.
  assert (Hin : slice_from_ok (items r) S = true).
  { unfold slice_from_ok. apply andb_true_iff. split; apply Z.leb_le; lia. }
  split; [done|]. split; [done|].
  unfold Roll. rewrite Hsz, Hok, Hin. by eexists.
Qed.

Lemma Add_total (S : Z) r (x : A) :
  is_int S -> 0 <= S -> make_ok (int_mul 2 S) = true -> size r = S ->
  exists r1, Add r x = Done r1 /\ size r1 = S.
Proof.
  intros HiS HS Hok Hsz. unfold Add.
  destruct (needs_roll r) eqn:Hroll.
  - destruct (guard_in_bounds S r HiS HS Hok Hsz Hroll) as (_ & _ & r1 & -> & Hsz1).
    simpl. by eexists.
  - simpl. by eexists.
Qed.

Lemma AddAll_total (S : Z) xs : forall r,
  is_int S -> 0 <= S -> make_ok (int_mul 2 S) = true -> size r = S ->
  exists r1, AddAll r xs = Done r1 /\ size r1 = S.
Proof.
  induction xs as [|x xs IH]; intros r HiS HS Hok Hsz.
  - by exists r.
  - destruct (Add_total S r x HiS HS Hok Hsz) as (r1 & Hadd & Hsz1).
    simpl. rewrite Hadd. simpl. by apply IH.
Qed.

(** C10 (amended). [Roll] called on a list with [len(items) < size]
    panics: on the slice bounds, when [make] accepted the capacity as it
    did at construction. On a list constructed with a size that is not negative and
    used through [Add] only, no call panics, an [Add] whose guard
    [len(items) >= 2*size] fails appends without calling [Roll], and when
    the guard holds the slice expression of [Roll] is in bounds. *)
Theorem Roll_safety :
  (forall r, len (items r) < size r ->
     Roll r = Panic (if make_ok (int_mul 2 (size r))
                     then SliceBoundsOutOfRange
                     else MakeCapOutOfRange)) /\
  (forall (S : Z) r0 xs,
     is_int S -> 0 <= S -> NewRollingList S = Done r0 ->
     exists r, AddAll r0 xs = Done r /\
       (forall x, needs_roll r = false ->
          Add r x = Done {| size := size r; tot := int_add (tot r) 1;
                            items := items r ++ [x] |}) /\
       (needs_roll r = true ->
          2 * size r <= len (items r) /\
          slice_from_ok (items r) (size r) = true /\
          exists r1, Roll r = Done r1)).
Proof.
  split.
  - intros r Hshort. unfold Roll, slice_from_ok.
    destruct (make_ok (int_mul 2 (size r))); [|done].
    destruct (Z.leb_spec (size r) (len (items r))); [lia|].
    by rewrite andb_false_r.
  - intros S r0 xs HiS HS Hnew.
    pose proof (new_make_ok S r0 Hnew) as Hok.
    assert (Hsz0 : size r0 = S).
    { unfold NewRollingList in Hnew. rewrite Hok in Hnew. by injection Hnew as <-. }
    destruct (AddAll_total S xs r0 HiS HS Hok Hsz0) as (r & Hrun & Hsz).
    exists r. split; [done|]. split.
    + intros x Hno. unfold Add. by rewrite Hno.
    + intros Hroll.
      destruct (guard_in_bounds S r HiS HS Hok Hsz Hroll) as (H2 & Hin & r1 & Hr1 & _).
      split; [done|]. split; [done|]. by exists r1.
Qed.

(* ===================================================================== *)
(** ** RollingList: lookups at the edges and across [Add] and [Roll] *)
(* ===================================================================== *)

Lemma GetItem_late r (index : Z) :
  wf r -> index < tot r - len (items r) ->
  GetItem r index = Done (None, Some ErrTooLate).
Proof.
  intros Hwf Hlate. unfold GetItem. rewrite (oldestCached_exact r Hwf).
  destruct (Z.ltb_spec index (tot r - len (items r))); [done|lia].
Qed.

Lemma GetItem_miss r (index : Z) :
  wf r -> is_int index -> tot r <= index ->
  GetItem r index = Done (None, Some ErrKeyNotFound).
Proof.
  intros Hwf Hidx Hmiss. unfold GetItem. rewrite (oldestCached_exact r Hwf).
  pose proof (len_nonneg (items r)) as Hlen. destruct Hwf as [Hle Hmax].
  destruct (Z.ltb_spec index (tot r - len (items r))); [lia|].
  unfold int_sub. rewrite wrap_id by (unfold is_int, int_min, int_max in *; lia).
  destruct (Z.geb_spec (index - (tot r - len (items r))) (len (items r))); [done|lia].
Qed.

(** [GetItem] is too late exactly below the window. *)
Lemma GetItem_late_iff r (index : Z) :
  wf r -> is_int index ->
  GetItem r index = Done (None, Some ErrTooLate) <-> index < tot r - len (items r).
Proof.
  intros Hwf Hidx. split; [|by apply GetItem_late].
  intros Hget.
  destruct (Z.lt_ge_cases index (tot r - len (items r))) as [|Hge]; [done|].
  destruct (Z.lt_ge_cases index (tot r)) as [Hin|Hout].
  - destruct (GetItem_hit r index Hwf) as (x & _ & Hhit); [lia|]. congruence.
  - rewrite GetItem_miss in Hget by done. done.
Qed.

(** What [Add] leaves: the items kept (all of them, or all but the oldest
    [size]) followed by the new one. *)
Lemma Add_shape r r1 (x : A) :
  Add r x = Done r1 ->
  size r1 = size r /\ tot r1 = int_add (tot r) 1 /\
  exists d : nat, (d <= length (items r))%nat /\
                   items r1 = drop d (items r) ++ [x].
Proof.
  unfold Add. destruct (needs_roll r).
  - unfold Roll. destruct (make_ok (int_mul 2 (size r))); [|done].
    destruct (slice_from_ok (items r) (size r)) eqn:Hin; [|done].
    simpl. intros [= <-]. simpl. split; [done|]. split; [done|].
    exists (Z.to_nat (size r)). split; [|done].
    unfold slice_from_ok, len in Hin. apply andb_true_iff in Hin as [H0 H1].
    apply Z.leb_le in H0, H1. lia.
  - simpl. intros [= <-]. simpl. split; [done|]. split; [done|].
    exists 0%nat. split; [lia|done].
Qed.

Lemma Add_tot r r1 (x : A) :
  wf r -> tot r < int_max -> Add r x = Done r1 -> tot r1 = tot r + 1.
Proof.
  intros [Hle Hmax] Hroom Hadd.
  destruct (Add_shape r r1 x Hadd) as (_ & -> & _).
  pose proof (len_nonneg (items r)).
  apply wrap_id. unfold is_int, int_min, int_max in *. lia.
Qed.

(** X1. In a state the methods keep to, a negative index is reported as too
    late, never as not found. *)
Theorem GetItem_negative_index r (index : Z) :
  wf r -> index < 0 -> GetItem r index = Done (None, Some ErrTooLate).
Proof.
  intros Hwf Hneg. apply GetItem_late; [done|]. destruct Hwf. lia.
Qed.

(** X2. On a list just constructed every index that is not negative is not
    found, and every negative one is too late. *)
Theorem GetItem_on_new_list (S : Z) r0 (index : Z) :
  NewRollingList S = Done r0 -> is_int index ->
  GetItem r0 index
  = Done (None, Some (if index <? 0 then ErrTooLate else ErrKeyNotFound)).
Proof.
  intros Hnew Hidx. pose proof (wf_new S r0 Hnew) as Hwf.
  assert (Htot : tot r0 = 0 /\ items r0 = []).
  { unfold NewRollingList in Hnew. destruct (make_ok (int_mul 2 S)); [|done].
    by injection Hnew as <-. }
  destruct Htot as [Htot Hitems].
  destruct (Z.ltb_spec index 0).
  - apply GetItem_late; [done|]. rewrite Htot, Hitems. unfold len. simpl. lia.
  - apply GetItem_miss; [done|done|lia].
Qed.

(** X3. An [Add] that returns counts one more item, serves the item just
    added at the index [tot] had before the call, and reports the next
    index as not found. *)
Theorem Add_then_GetItem r r1 (x : A) :
  wf r -> tot r < int_max -> Add r x = Done r1 ->
  tot r1 = tot r + 1 /\
  GetItem r1 (tot r) = Done (Some x, None) /\
  GetItem r1 (tot r1) = Done (None, Some ErrKeyNotFound).
Proof.
  intros Hwf Hroom Hadd.
  pose proof (wf_Add r r1 x Hwf Hroom Hadd) as Hwf1.
  pose proof (Add_tot r r1 x Hwf Hroom Hadd) as Htot.
  destruct (Add_shape r r1 x Hadd) as (_ & _ & d & Hd & Hitems).
  split; [done|]. split.
  - destruct (GetItem_hit r1 (tot r) Hwf1) as (y & Hy & Hget).
    { rewrite Hitems, len_snoc. pose proof (len_nonneg (drop d (items r))). lia. }
    rewrite Hget. f_equal. f_equal. f_equal.
    rewrite Hitems, len_snoc, Htot in Hy.
    replace (Z.to_nat (tot r - (tot r + 1 - (len (drop d (items r)) + 1))))
      with (length (drop d (items r)) + 0)%nat in Hy by (unfold len; lia).
    rewrite lookup_app_r, Nat.add_0_r, Nat.sub_diag in Hy by lia.
    simpl in Hy. congruence.
  - apply GetItem_miss; [done| |lia].
    destruct Hwf1 as [Hle Hmax]. pose proof (len_nonneg (items r1)).
    unfold is_int, int_min, int_max in *. lia.
Qed.

(** X4. An [Add] changes no item it keeps: every index below the old [tot]
    that is still in the window is served as before the call. *)
Theorem Add_keeps_cached_items r r1 (x : A) (index : Z) :
  wf r -> tot r < int_max -> Add r x = Done r1 ->
  tot r1 - len (items r1) <= index < tot r ->
  GetItem r1 index = GetItem r index.
Proof.
  intros Hwf Hroom Hadd Hin.
  pose proof (wf_Add r r1 x Hwf Hroom Hadd) as Hwf1.
  pose proof (Add_tot r r1 x Hwf Hroom Hadd) as Htot.
  destruct (Add_shape r r1 x Hadd) as (_ & _ & d & Hd & Hitems).
  assert (Hlen1 : len (items r1) = len (items r) - Z.of_nat d + 1).
  { rewrite Hitems, len_snoc. unfold len. rewrite length_drop. lia. }
  destruct (GetItem_hit r1 index Hwf1) as (y1 & Hy1 & ->); [lia|].
  destruct (GetItem_hit r index Hwf) as (y & Hy & ->); [lia|].
  f_equal. f_equal. f_equal.
  pose proof (len_nonneg (items r)) as Hlen.
  assert (Hk : Z.to_nat (index - (tot r1 - len (items r1)))
               = (Z.to_nat (index - (tot r - len (items r))) - d)%nat /\
               (d <= Z.to_nat (index - (tot r - len (items r))))%nat /\
               (Z.to_nat (index - (tot r - len (items r))) < length (items r))%nat)
    by (unfold len in *; lia).
  destruct Hk as (Hk & Hdk & Hklen). rewrite Hk in Hy1. clear Hk.
  rewrite Hitems in Hy1.
  rewrite lookup_app_l in Hy1 by (rewrite length_drop; lia).
  rewrite lookup_drop in Hy1.
  replace (d + (Z.to_nat (index - (tot r - len (items r))) - d))%nat
    with (Z.to_nat (index - (tot r - len (items r)))) in Hy1 by lia.
  congruence.
Qed.

Lemma Add_oldest_grows r r1 (x : A) :
  wf r -> tot r < int_max -> Add r x = Done r1 ->
  tot r - len (items r) <= tot r1 - len (items r1).
Proof.
  intros Hwf Hroom Hadd.
  pose proof (Add_tot r r1 x Hwf Hroom Hadd) as Htot.
  destruct (Add_shape r r1 x Hadd) as (_ & _ & d & Hd & Hitems).
  rewrite Hitems, len_snoc. unfold len. rewrite length_drop. lia.
Qed.

(** X5. An index that is too late stays too late through every later
    sequence of [Add] calls: an evicted item never comes back. *)
Theorem too_late_is_final xs : forall r r1 (index : Z),
  wf r -> tot r + len xs <= int_max -> is_int index ->
  AddAll r xs = Done r1 ->
  GetItem r index = Done (None, Some ErrTooLate) ->
  GetItem r1 index = Done (None, Some ErrTooLate).
Proof.
  induction xs as [|x xs IH]; intros r r1 index Hwf Hroom Hidx Hrun Hlate.
  - simpl in Hrun. by injection Hrun as <-.
  - simpl in Hrun. destruct (Add r x) as [r2| |] eqn:Hadd; [|done..].
    simpl in Hrun.
    assert (Hlt : tot r < int_max).
    { unfold len in Hroom. simpl in Hroom. lia. }
    pose proof (wf_Add r r2 x Hwf Hlt Hadd) as Hwf2.
    apply (IH r2 r1 index); try done.
    + rewrite (Add_tot r r2 x Hwf Hlt Hadd). unfold len in *. simpl in Hroom. lia.
    + apply GetItem_late_iff in Hlate; [|done..].
      apply GetItem_late; [done|].
      pose proof (Add_oldest_grows r r2 x Hwf Hlt Hadd). lia.
Qed.

Lemma Roll_shape r r1 :
  Roll r = Done r1 ->
  size r1 = size r /\ tot r1 = tot r /\ 0 <= size r <= len (items r) /\
  items r1 = drop (Z.to_nat (size r)) (items r).
Proof.
  unfold Roll. destruct (make_ok (int_mul 2 (size r))); [|done].
  destruct (slice_from_ok (items r) (size r)) eqn:Hin; [|done].
  intros [= <-]. simpl.
  unfold slice_from_ok in Hin. apply andb_true_iff in Hin as [H0 H1].
  apply Z.leb_le in H0, H1. done.
Qed.

(** X6. A [Roll] that returns leaves [tot] and [size] alone and evicts
    exactly the oldest [size] buffered items: their indices become too
    late and every other index is served as before. *)
Theorem Roll_evicts_oldest r r1 (index : Z) :
  wf r -> is_int index -> Roll r = Done r1 ->
  tot r1 = tot r /\ size r1 = size r /\
  len (items r1) = len (items r) - size r /\
  GetItem r1 index
  = if index <? tot r - len (items r) + size r
    then Done (None, Some ErrTooLate)
    else GetItem r index.
Proof.
  intros Hwf Hidx Hroll.
  pose proof (wf_Roll r r1 Hwf Hroll) as Hwf1.
  destruct (Roll_shape r r1 Hroll) as (Hsz & Htot & Hin & Hitems).
  assert (Hlen1 : len (items r1) = len (items r) - size r).
  { rewrite Hitems. by apply len_drop. }
  split; [done|]. split; [done|]. split; [done|].
  destruct (Z.ltb_spec index (tot r - len (items r) + size r)) as [Hlate|Hge].
  - apply GetItem_late; [done|]. lia.
  - destruct (Z.lt_ge_cases index (tot r)) as [Hhit|Hmiss].
    + destruct (GetItem_hit r1 index Hwf1) as (y1 & Hy1 & ->); [lia|].
      destruct (GetItem_hit r index Hwf) as (y & Hy & ->); [lia|].
      f_equal. f_equal. f_equal.
      assert (Hk : Z.to_nat (index - (tot r1 - len (items r1)))
                   = (Z.to_nat (index - (tot r - len (items r))) - Z.to_nat (size r))%nat /\
                   (Z.to_nat (size r) <= Z.to_nat (index - (tot r - len (items r))))%nat)
        by lia.
      destruct Hk as [Hk Hle]. rewrite Hk, Hitems, lookup_drop in Hy1.
      replace (Z.to_nat (size r) +
               (Z.to_nat (index - (tot r - len (items r))) - Z.to_nat (size r)))%nat
        with (Z.to_nat (index - (tot r - len (items r)))) in Hy1 by lia.
      congruence.
    + rewrite !GetItem_miss; try done. lia.
Qed.

(** X7. A window size of 0 is accepted and never evicts: every [Add]
    compacts, [Roll] drops nothing, and the buffer is the whole sequence
    appended. *)
Theorem size_zero_keeps_everything xs :
  NewRollingList (A:=A) 0 = Done (mkRollingList 0 0 []) /\
  exists r, AddAll (mkRollingList 0 0 []) xs = Done r /\
            size r = 0 /\ items r = xs /\
            roll_trace (mkRollingList 0 0 []) xs = replicate (length xs) true.
Proof.
  split; [done|].
  assert (Hgen : forall ys r0, size r0 = 0 ->
            exists r, AddAll r0 ys = Done r /\ size r = 0 /\
                      items r = items r0 ++ ys /\
                      roll_trace r0 ys = replicate (length ys) true).
  { induction ys as [|y ys IH]; intros r0 Hsz.
    - exists r0. by rewrite app_nil_r.
    - assert (Hroll : needs_roll r0 = true).
      { unfold needs_roll. rewrite Hsz. apply Z.geb_le. pose proof (len_nonneg (items r0)).
        change (int_mul 2 0) with 0. lia. }
      assert (Hadd : Add r0 y = Done {| size := 0; tot := int_add (tot r0) 1;
                                        items := items r0 ++ [y] |}).
      { unfold Add, Roll, slice_from_ok. rewrite Hroll, Hsz.
        change (make_ok (int_mul 2 0)) with true. simpl.
        pose proof (len_nonneg (items r0)).
        destruct (Z.leb_spec 0 (len (items r0))); [|lia]. done. }
      destruct (IH {| size := 0; tot := int_add (tot r0) 1; items := items r0 ++ [y] |})
        as (r & Hrun & Hsz1 & Hitems & Htrace); [done|].
      exists r. simpl. rewrite Hadd, Hroll. simpl. rewrite Htrace.
      split; [done|]. split; [done|]. split; [|done].
      rewrite Hitems. simpl. by rewrite <- app_assoc. }
  destruct (Hgen xs (mkRollingList 0 0 [])) as (r & Hrun & Hsz & Hitems & Htrace); [done|].
  exists r. done.
Qed.

(** X8. [NewRollingList] panics in [make] for every negative size whose
    double does not overflow, and for every size whose double overflows
    to a negative capacity. *)
Theorem NewRollingList_rejects (S : Z) :
  is_int S -> - 2 ^ 62 <= S < 0 \/ 2 ^ 62 <= S ->
  NewRollingList (A:=A) S = Panic MakeCapOutOfRange.
Proof.
  unfold is_int, int_min, int_max. intros HiS Hrange.
  assert (Hneg : int_mul 2 S < 0).
  { unfold int_mul, wrap. destruct Hrange as [Hr|Hr].
    - rewrite Z.mod_small by lia. lia.
    - replace (2 * S + 2 ^ 63) with ((2 * S - 2 ^ 63) + 1 * 2 ^ 64) by lia.
      rewrite Z.mod_add by lia. rewrite Z.mod_small by lia. lia. }
  unfold NewRollingList, make_ok.
  destruct (Z.leb_spec 0 (int_mul 2 S)); [lia|done].
Qed.

(** X9. [Get] and [GetItem] agree: [GetItem] serves [x] at an index
    exactly when the index is [tot - len + k] for the position [k] at which
    the slice returned by [Get] holds [x]. *)
Theorem Get_agrees_with_GetItem r (index : Z) (x : A) :
  wf r -> is_int index ->
  GetItem r index = Done (Some x, None)
  <-> snd (Get r) - len (fst (Get r)) <= index /\
      fst (Get r) !! Z.to_nat (index - (snd (Get r) - len (fst (Get r)))) = Some x.
Proof.
  intros Hwf Hidx. unfold Get. simpl.
  pose proof (len_nonneg (items r)) as Hlen.
  split.
  - intros Hget.
    destruct (Z.lt_ge_cases index (tot r - len (items r))) as [Hlate|Hge].
    { rewrite GetItem_late in Hget by done. done. }
    destruct (Z.lt_ge_cases index (tot r)) as [Hin|Hout].
    + destruct (GetItem_hit r index Hwf) as (y & Hy & Hy2); [lia|].
      split; [done|]. congruence.
    + rewrite GetItem_miss in Hget by done. done.
  - intros [Hge Hk]. apply lookup_lt_Some in Hk as Hlt.
    destruct (GetItem_hit r index Hwf) as (y & Hy & ->).
    { unfold len in *. lia. }
    congruence.
Qed.


(* ===================================================================== *)
(** ** RollingList: how often [Add] compacts *)
(* ===================================================================== *)

Lemma needs_roll_iff (S : Z) r :
  is_int S -> 0 <= S -> make_ok (int_mul 2 S) = true -> size r = S ->
  needs_roll r = true <-> 2 * S <= len (items r).
Proof.
  intros HiS HS Hok Hsz. unfold needs_roll.
  rewrite Hsz, double_of_nonneg by done. apply Z.geb_le.
Qed.

Lemma Add_len (S : Z) r (x : A) :
  is_int S -> 0 <= S -> make_ok (int_mul 2 S) = true -> size r = S ->
  exists r1, Add r x = Done r1 /\ size r1 = S /\
    len (items r1) = (if needs_roll r then len (items r) - S else len (items r)) + 1.
Proof.
  intros HiS HS Hok Hsz. unfold Add.
  destruct (needs_roll r) eqn:Hroll.
  - destruct (guard_in_bounds S r HiS HS Hok Hsz Hroll) as (_ & _ & r1 & Hr1 & Hsz1).
    rewrite Hr1. simpl. eexists. split; [done|]. simpl. split; [done|].
    destruct (Roll_shape r r1 Hr1) as (_ & _ & Hin & ->).
    rewrite len_snoc, len_drop by done. lia.
  - simpl. eexists. split; [done|]. simpl. split; [done|]. by rewrite len_snoc.
Qed.

Lemma AddAll_len_bound (S : Z) xs : forall r,
  is_int S -> 1 <= S -> make_ok (int_mul 2 S) = true -> size r = S ->
  len (items r) <= 2 * S ->
  exists r1, AddAll r xs = Done r1 /\ size r1 = S /\ len (items r1) <= 2 * S.
Proof.
  induction xs as [|x xs IH]; intros r HiS HS Hok Hsz Hlen.
  - by exists r.
  - destruct (Add_len S r x HiS) as (r1 & Hadd & Hsz1 & Hlen1); [lia|done|done|].
    simpl. rewrite Hadd. simpl. apply IH; try done.
    rewrite Hlen1. destruct (needs_roll r) eqn:Hroll; [lia|].
    destruct (needs_roll_iff S r HiS) as [_ Hback]; [lia|done|done|].
    destruct (Z.lt_ge_cases (len (items r)) (2 * S)); [lia|].
    rewrite Hback in Hroll by lia. done.
Qed.

(** With [a] items beyond [S] buffered, the next [S - a] calls of [Add]
    do not compact. *)
Lemma AddAll_without_roll (S : Z) ys : forall r (a : Z),
  is_int S -> 1 <= S -> make_ok (int_mul 2 S) = true -> size r = S ->
  len (items r) = S + a -> a + len ys <= S ->
  exists r2, AddAll r ys = Done r2 /\ size r2 = S /\
             len (items r2) = S + a + len ys /\
             roll_trace r ys = replicate (length ys) false.
Proof.
  induction ys as [|y ys IH]; intros r a HiS HS Hok Hsz Hlen Hroom.
  - exists r. unfold len in *. simpl. repeat split; try done. lia.
  - assert (Hlen_ys : len (y :: ys) = len ys + 1) by (unfold len; simpl; lia).
    pose proof (len_nonneg ys) as Hys.
    assert (Hno : needs_roll r = false).
    { destruct (needs_roll r) eqn:Hroll; [|done].
      apply (needs_roll_iff S r HiS) in Hroll; [lia|lia|done|done]. }
    destruct (Add_len S r y HiS) as (r1 & Hadd & Hsz1 & Hlen1); [lia|done|done|].
    rewrite Hno in Hlen1.
    destruct (IH r1 (a + 1)) as (r2 & Hrun & Hsz2 & Hlen2 & Htrace); try done; try lia.
    exists r2. simpl. rewrite Hadd, Hno. simpl. rewrite Htrace.
    repeat split; try done. lia.
Qed.

(** X10. Compactions are [S] calls apart. On a list constructed with a
    size [S >= 1] and used through [Add] only: when the next [Add] is
    going to compact, it is the only one of the next [S] calls that does,
    and the call after those [S] compacts again. *)
Theorem compactions_are_S_adds_apart (S : Z) r0 xs r ys :
  is_int S -> 1 <= S -> NewRollingList S = Done r0 ->
  AddAll r0 xs = Done r -> needs_roll r = true ->
  1 <= len ys <= S ->
  exists r2, AddAll r ys = Done r2 /\
    roll_trace r ys = true :: replicate (length ys - 1) false /\
    (needs_roll r2 = true <-> len ys = S).
Proof.
  intros HiS HS Hnew Hrun Hroll Hys.
  pose proof (new_make_ok S r0 Hnew) as Hok.
  assert (H0 : size r0 = S /\ len (items r0) <= 2 * S).
  { unfold NewRollingList in Hnew. rewrite Hok in Hnew. injection Hnew as <-.
    unfold len. simpl. lia. }
  destruct H0 as [Hsz0 Hlen0].
  destruct (AddAll_len_bound S xs r0 HiS HS Hok Hsz0 Hlen0) as (r' & Hrun' & Hsz & Hlen).
  rewrite Hrun in Hrun'. injection Hrun' as <-.
  assert (Hfull : len (items r) = 2 * S).
  { apply (needs_roll_iff S r HiS) in Hroll; [lia|lia|done|done]. }
  destruct ys as [|y ys]; [unfold len in Hys; simpl in Hys; lia|].
  assert (Hlen_ys : len (y :: ys) = len ys + 1) by (unfold len; simpl; lia).
  destruct (Add_len S r y HiS) as (r1 & Hadd & Hsz1 & Hlen1); [lia|done|done|].
  rewrite Hroll in Hlen1.
  destruct (AddAll_without_roll S ys r1 1 HiS HS Hok Hsz1)
    as (r2 & Hrun2 & Hsz2 & Hlen2 & Htrace); [lia|lia|].
  exists r2. simpl. rewrite Hadd, Hroll. simpl. rewrite Htrace, Nat.sub_0_r.
  split; [done|]. split; [done|].
  rewrite (needs_roll_iff S r2 HiS) by (done || lia). lia.
Qed.

End RollingListFacts.

(** [GetItem_spec] on the state the example run ends in, at index 6. *)
Lemma GetItem_spec_witness :
  let r := common.mkRollingList 3 7 [3; 4; 5; 6] in
  common.oldestCached r = 3 /\
  (common.GetItem r 6 = Done (None, Some common.ErrTooLate) <-> 6 < 7 - 4) /\
  (common.GetItem r 6 = Done (None, Some common.ErrKeyNotFound) <-> 6 - (7 - 4) >= 4) /\
  (7 - 4 <= 6 -> 6 - (7 - 4) < 4 ->
   exists x, [3; 4; 5; 6] !! Z.to_nat (6 - (7 - 4)) = Some x /\
             common.GetItem r 6 = Done (Some x, None)).
Proof.
  apply (GetItem_spec (common.mkRollingList 3 7 [3; 4; 5; 6]) 6).
  - unfold common.wf, int_max. simpl. unfold len. simpl. lia.
  - unfold is_int, int_min, int_max. lia.
Defined.

(** [AddAll_window] on the example run: a window of 3, seven items. *)
Lemma AddAll_window_witness :
  exists r, common.AddAll (common.mkRollingList 3 0 []) common.seven = Done r /\
    common.tot r = len common.seven /\ len (common.items r) <= 2 * 3 /\
    common.items r = drop (length common.seven - length (common.items r)) common.seven /\
    (forall i, common.tot r - len (common.items r) <= i < common.tot r ->
       exists x, common.seven !! Z.to_nat i = Some x /\
                 common.GetItem r i = Done (Some x, None)) /\
    (common.needs_roll r = true ->
       exists r1, common.Roll r = Done r1 /\ 3 <= len (common.items r1) < 2 * 3 /\
                  common.items r1 = drop (length common.seven - Z.to_nat 3) common.seven).
Proof.
  apply (AddAll_window 3 (common.mkRollingList 3 0 []) common.seven).
  - unfold is_int, int_min, int_max. lia.
  - lia.
  - reflexivity.
  - unfold int_max, len. simpl. lia.
Defined.

(** C2, as stated, fails for a window size of 0: every [Add] compacts,
    [Roll] drops nothing, and no length lies in the empty range [[0, 0)];
    after three calls the buffer holds three items. *)
Lemma window_fails_for_size_zero :
  let r0 := common.mkRollingList 0 0 ([] : list Z) in
  is_int 0 /\
  common.NewRollingList 0 = Done r0 /\
  common.needs_roll r0 = true /\
  common.Roll r0 = Done r0 /\
  ~ (common.size r0 <= len (common.items r0) < 2 * common.size r0) /\
  common.roll_trace r0 [0; 1; 2] = [true; true; true] /\
  common.AddAll r0 [0; 1; 2] = Done (common.mkRollingList 0 3 [0; 1; 2]).
Proof.
  simpl. unfold is_int, int_min, int_max.
  repeat split; try reflexivity; try lia.
Qed.

(** C7. A window of 3 and the seven items 0 through 6: [tot] is 7, the one
    compaction is at the 7th [Add], where [Roll] keeps the items 3, 4, 5
    before 6 is appended; [GetItem(0)] is too late, [GetItem(6)] is the item
    with global index 6, [GetItem(7)] is not found. *)
Theorem seven_adds_window_three :
  exists r0 r6 r6' r7 : common.RollingList Z,
    common.NewRollingList 3 = Done r0 /\
    common.AddAll r0 common.seven = Done r7 /\
    common.tot r7 = 7 /\
    common.roll_trace r0 common.seven = [false; false; false; false; false; false; true] /\
    common.AddAll r0 (take 6 common.seven) = Done r6 /\
    common.Roll r6 = Done r6' /\
    common.items r6' = [3; 4; 5] /\
    common.Add r6 6 = Done r7 /\
    common.items r7 = [3; 4; 5; 6] /\
    common.GetItem r7 0 = Done (None, Some common.ErrTooLate) /\
    common.GetItem r7 6 = Done (common.seven !! 6%nat, None) /\
    common.seven !! 6%nat = Some 6 /\
    common.GetItem r7 7 = Done (None, Some common.ErrKeyNotFound).
Proof.
  exists (common.mkRollingList 3 0 []),
         (common.mkRollingList 3 6 [0; 1; 2; 3; 4; 5]),
         (common.mkRollingList 3 6 [3; 4; 5]),
         (common.mkRollingList 3 7 [3; 4; 5; 6]).
  vm_compute. repeat split.
Qed.

(** C10, as stated, fails for the size [int_min]: [2*size] overflows to 0,
    [make] accepts it, the first [Add] passes the guard and the slice
    expression of [Roll] panics on the negative bound. *)
Lemma Roll_panics_under_Add :
  let r0 := common.mkRollingList int_min 0 ([] : list Z) in
  is_int int_min /\
  common.NewRollingList int_min = Done r0 /\
  common.needs_roll r0 = true /\
  slice_from_ok (common.items r0) (common.size r0) = false /\
  common.Add r0 7 = Panic SliceBoundsOutOfRange.
Proof.
  split; [unfold is_int, int_min, int_max; lia|].
  vm_compute. repeat split.
Qed.

(** [Roll_safety] on a list of size 3 holding two items, and on the
    example run. *)
Lemma Roll_safety_witness :
  common.Roll (common.mkRollingList 3 2 [0; 1]) = Panic SliceBoundsOutOfRange /\
  (exists r, common.AddAll (common.mkRollingList 3 0 []) common.seven = Done r /\
     (common.needs_roll r = true -> 2 * common.size r <= len (common.items r))).
Proof.
  destruct (@Roll_safety Z) as [Hshort Hadd]. split.
  - apply (Hshort (common.mkRollingList 3 2 [0; 1])). unfold len. simpl. lia.
  - destruct (Hadd 3 (common.mkRollingList 3 0 []) common.seven) as (r & Hrun & _ & Hguard).
    + unfold is_int, int_min, int_max. lia.
    + lia.
    + reflexivity.
    + exists r. split; [done|]. intros Hroll. by destruct (Hguard Hroll).
Defined.

(* ===================================================================== *)
(** ** NetworkTransport: shutdown *)
(* ===================================================================== *)

Section TransportFacts.

Import net.
Context {SyncRequest SyncResponse : Type}.
Variable Sprintf : string -> list Z -> string.

Local Abbreviation W := (world SyncRequest SyncResponse).
Implicit Types (w : W) (c : netConn) (io : rpc_io SyncResponse).

(** Unfolds the monad of transport code in the goal. *)
Ltac run := unfold bind, get, put, emit, ret, raise, block; simpl.

Lemma closes_app (k : conn_id) (tr1 tr2 : list (event SyncRequest SyncResponse)) :
  closes k (tr1 ++ tr2) = (closes k tr1 + closes k tr2)%nat.
Proof.
  induction tr1 as [|e tr1 IH]; [done|].
  destruct e; simpl; rewrite ?IH; lia.
Qed.

Lemma Close_running w :
  shutdown (nt w) = false -> shutdownCh (nt w) = false ->
  Close w = Done (None, closed_world w).
Proof.
  intros Hs Hc. unfold Close, close_shutdownCh. run.
  rewrite Hs. simpl. run. rewrite Hc. done.
Qed.

Lemma Close_stopped w : shutdown (nt w) = true -> Close w = Done (None, w).
Proof.
  intros Hs. unfold Close. run. rewrite Hs. simpl. by destruct w.
Qed.

(** C8. [Close] is idempotent. On a transport whose flag and signal agree,
    the first call closes the shutdown channel, closes the stream layer
    once and sets the flag; a call on a transport already shut down changes
    nothing; neither call panics, and two calls in a row leave the state
    one call leaves. *)
Theorem Close_idempotent w :
  consistent w ->
  exists w1,
    Close w = Done (None, w1) /\
    Close w1 = Done (None, w1) /\
    bind Close (fun _ => Close) w = Close w /\
    consistent w1 /\ shutdown (nt w1) = true /\ shutdownCh (nt w1) = true /\
    (shutdown (nt w) = false -> w1 = closed_world w) /\
    (shutdown (nt w) = true -> w1 = w).
Proof.
  unfold consistent. intros Hcons.
  destruct (shutdown (nt w)) eqn:Hs.
  - exists w. pose proof (Close_stopped w Hs) as Hclose.
    unfold bind. rewrite Hclose.
    repeat split; try done. by rewrite <- Hcons.
  - exists (closed_world w).
    pose proof (Close_running w Hs (eq_sym Hcons)) as Hclose.
    assert (Hagain : Close (closed_world w) = Done (None, closed_world w))
      by (by apply Close_stopped).
    unfold bind. rewrite Hclose, Hagain.
    repeat split; done.
Qed.

(* ===================================================================== *)
(** ** NetworkTransport: the connection pool *)
(* ===================================================================== *)

Lemma getPooledConn_top w (tgt : string) (conns : list netConn) c :
  connPool (nt w) !! tgt = Some (conns ++ [c]) ->
  getPooledConn tgt w
  = Done (Some c, with_pool (<[tgt := conns]> (connPool (nt w))) w).
Proof.
  intros Hlk. unfold getPooledConn. run. rewrite Hlk.
  rewrite length_app. simpl.
  replace (length conns + 1 - 1)%nat with (length conns) by lia.
  destruct (Nat.eqb_spec (length conns + 1) 0); [lia|].
  rewrite lookup_app_r by lia. rewrite Nat.sub_diag. simpl. run.
  by rewrite take_app_length.
Qed.

Lemma getPooledConn_none w (tgt : string) :
  default [] (connPool (nt w) !! tgt) = [] ->
  getPooledConn tgt w = Done (None, w).
Proof.
  intros Hlk. unfold getPooledConn. run.
  destruct (connPool (nt w) !! tgt) as [conns|]; [|done].
  simpl in Hlk. by subst conns.
Qed.

Lemma returnConn_admitted w c :
  shutdownCh (nt w) = false ->
  len (default [] (connPool (nt w) !! target c)) < maxPool (nt w) ->
  returnConn c w
  = Done (tt, with_pool (<[target c := default [] (connPool (nt w) !! target c) ++ [c]]>
                           (connPool (nt w))) w).
Proof.
  intros Hup Hroom. unfold returnConn, IsShutdown. run. rewrite Hup. simpl.
  destruct (Z.ltb_spec (len (default [] (connPool (nt w) !! target c))) (maxPool (nt w)));
    [done|lia].
Qed.

Lemma returnConn_refused w c :
  shutdownCh (nt w) = true \/
  maxPool (nt w) <= len (default [] (connPool (nt w) !! target c)) ->
  returnConn c w
  = Done (tt, {| nt := nt w; trace := trace w ++ [EvConnClose (conn c)] |}).
Proof.
  intros Hwhy. unfold returnConn, IsShutdown, Release. run.
  destruct (shutdownCh (nt w)); [done|]. simpl.
  destruct (Z.ltb_spec (len (default [] (connPool (nt w) !! target c))) (maxPool (nt w)));
    [|done].
  destruct Hwhy; [done|lia].
Qed.

(** C6. [returnConn] adds the connection to its target's idle list only
    when the transport is not shut down and that list holds fewer than
    [maxPool] connections, and closes it at once otherwise; [getPooledConn]
    hands out the last connection of the list, so a connection just
    admitted is the next one handed out and the list is then as before. *)
Theorem pool_admission_and_reuse w c :
  let idle := default [] (connPool (nt w) !! target c) in
  IsShutdown w = Done (shutdownCh (nt w), w) /\
  (shutdownCh (nt w) = false -> len idle < maxPool (nt w) ->
     exists w1,
       returnConn c w = Done (tt, w1) /\
       connPool (nt w1) = <[target c := idle ++ [c]]> (connPool (nt w)) /\
       closes (conn c) (trace w1) = closes (conn c) (trace w) /\
       getPooledConn (target c) w1
       = Done (Some c, with_pool (<[target c := idle]> (connPool (nt w))) w)) /\
  (shutdownCh (nt w) = true \/ maxPool (nt w) <= len idle ->
     exists w1,
       returnConn c w = Done (tt, w1) /\
       connPool (nt w1) = connPool (nt w) /\
       trace w1 = trace w ++ [EvConnClose (conn c)]) /\
  (forall (tgt : string) (conns : list netConn) (c1 : netConn),
     connPool (nt w) !! tgt = Some (conns ++ [c1]) ->
     getPooledConn tgt w
     = Done (Some c1, with_pool (<[tgt := conns]> (connPool (nt w))) w)).
Proof.
  intros idle. split; [done|]. split; [|split].
  - intros Hup Hroom. eexists. split; [by apply returnConn_admitted|].
    split; [done|]. split; [done|].
    rewrite (getPooledConn_top _ (target c) idle c) by apply lookup_insert_eq.
    unfold with_pool, set_connPool. simpl.
    by rewrite insert_insert_eq.
  - intros Hwhy. eexists. split; [by apply returnConn_refused|]. done.
  - intros tgt conns c1 Hlk. by apply getPooledConn_top.
Qed.

(* ===================================================================== *)
(** ** NetworkTransport: the outbound call *)
(* ===================================================================== *)

Lemma returnConn_total w c :
  exists w1, returnConn c w = Done (tt, w1) /\ same_flags w w1 /\
    (shutdownCh (nt w) = false ->
     len (default [] (connPool (nt w) !! target c)) < maxPool (nt w) ->
     trace w1 = trace w /\
     connPool (nt w1)
     = <[target c := default [] (connPool (nt w) !! target c) ++ [c]]> (connPool (nt w))).
Proof.
  destruct (shutdownCh (nt w)) eqn:Hch.
  - eexists. split; [apply returnConn_refused; by left|done].
  - destruct (Z.lt_ge_cases (len (default [] (connPool (nt w) !! target c))) (maxPool (nt w))).
    + eexists. split; [by apply returnConn_admitted|done].
    + eexists. split; [apply returnConn_refused; by right|].
      split; [done|]. intros _ ?. lia.
Qed.

(** [getConn] hands out a connection and no error, closing nothing, or the
    error of a failed dial and no connection, changing nothing. *)
Lemma getConn_cases w (tgt : string) (to : Z) (dr : error + conn_id) :
  (exists c w1, getConn tgt to dr w = Done ((Some c, None), w1) /\
     same_flags w w1 /\
     timeout (nt w1) = timeout (nt w) /\
     forall k, closes k (trace w1) = closes k (trace w)) \/
  (exists e, dr = inl e /\
     getConn tgt to dr w
     = Done ((None, Some e), {| nt := nt w; trace := trace w ++ [EvDial tgt to] |})).
Proof.
  unfold getConn, getPooledConn. run.
  destruct (connPool (nt w) !! tgt) as [conns|] eqn:Hlk.
  - destruct (Nat.eqb_spec (length conns) 0) as [Hz|Hnz]; simpl.
    + destruct dr as [e|k]; [right; by exists e|left].
      do 2 eexists. split; [done|]. simpl. repeat split.
      intros k0. by rewrite closes_app, Nat.add_0_r.
    + destruct (lookup_lt_is_Some_2 conns (length conns - 1)) as [c Hc]; [lia|].
      rewrite Hc. simpl. left. do 2 eexists. split; [done|]. done.
  - simpl. destruct dr as [e|k]; [right; by exists e|left].
    do 2 eexists. split; [done|]. simpl. repeat split.
    intros k0. by rewrite closes_app, Nat.add_0_r.
Qed.

(** Closes the goals about the number of closes of a connection. *)
Ltac count_closes :=
  simpl; rewrite ?closes_app; simpl; rewrite ?Nat.eqb_refl; lia.

(** No outbound call touches the shutdown flag or signal: [Close] is their
    only writer, and the state [NewNetworkTransport] builds is consistent. *)
Lemma genericRPC_flags w (tgt : string) (rpcType : Z) (args : SyncRequest)
    (resp0 : SyncResponse) io :
  exists r w', genericRPC tgt rpcType args resp0 io w = Done (r, w') /\
               same_flags w w'.
Proof.
  unfold genericRPC. run.
  destruct (getConn_cases w tgt (timeout (nt w)) (dial_r io))
    as [(c & w1 & Hget & Hfl & _ & _)|(e & _ & Hget)]; rewrite Hget.
  2: { by do 2 eexists. }
  unfold sendRPC, decodeResponse, Release. run.
  destruct (0 <? timeout (nt w)); simpl.
  all: destruct (writeByte_r io) as [e1|]; simpl; [by do 2 eexists|].
  all: destruct (encode_r io) as [e2|]; simpl; [by do 2 eexists|].
  all: destruct (flush_r io) as [e3|]; simpl; [by do 2 eexists|].
  all: destruct (decodeErr_r io) as [e4|rpcError]; simpl; [by do 2 eexists|].
  all: destruct (decodeResp_r io) as [e5|v]; simpl; [by do 2 eexists|].
  all: destruct (negb (String.eqb rpcError EmptyString)); simpl; run.
  all: match goal with
       | |- context [returnConn ?c0 ?w2] =>
           destruct (returnConn_total w2 c0) as (w3 & Hret & Hfl3 & _)
       end.
  all: rewrite Hret; do 2 eexists; (split; [done|]).
  all: destruct Hfl as [Ha Hb], Hfl3 as [Hc Hd]; simpl in *; split; congruence.
Qed.

Lemma consistent_new (maxPool to : Z) :
  consistent (NewNetworkTransport maxPool to : W).
Proof. done. Qed.

Lemma consistent_same_flags w (w1 : W) :
  same_flags w w1 -> consistent w -> consistent w1.
Proof. unfold same_flags, consistent. intros [-> ->]. done. Qed.

(** Closes a case of [genericRPC] in which a stage failed. *)
Ltac failed_stage :=
  do 3 eexists; split; [done|]; split; [done|]; split; [done|]; count_closes.

(** C4. Every outbound call returns. When no connection could be had (the
    dial failed) the error is returned and nothing is pooled. With a
    connection in hand: if the write of the type byte, the encoding of the
    request, the flush, or the decoding of the error string or of the
    response value fails, an error is returned, the connection is closed
    once and the pool is left as it was when the connection was taken; only
    when all of them succeed is the connection, not closed, handed to
    [returnConn]. *)
Theorem genericRPC_disposition w (tgt : string) (rpcType : Z)
    (args : SyncRequest) (resp0 : SyncResponse) io :
  exists err v w',
    genericRPC tgt rpcType args resp0 io w = Done ((err, v), w') /\
    match getConn tgt (timeout (nt w)) (dial_r io) w with
    | Done ((Some c, None), w1) =>
        if round_trip_ok io
        then exists w2, returnConn c w2 = Done (tt, w') /\ nt w2 = nt w1 /\
                        closes (conn c) (trace w2) = closes (conn c) (trace w1)
        else err <> None /\ nt w' = nt w1 /\
             closes (conn c) (trace w') = S (closes (conn c) (trace w1))
    | Done ((None, Some e), w1) => err = Some e /\ w' = w1 /\ nt w1 = nt w
    | _ => False
    end.
Proof.
  unfold genericRPC. run.
  destruct (getConn_cases w tgt (timeout (nt w)) (dial_r io))
    as [(c & w1 & Hget & _ & _ & _)|(e & _ & Hget)]; rewrite Hget.
  2: { by exists (Some e), resp0, {| nt := nt w; trace := trace w ++ [EvDial tgt (timeout (nt w))] |}. }
  unfold sendRPC, decodeResponse, Release, round_trip_ok. run.
  destruct (0 <? timeout (nt w)); simpl.
  all: destruct (writeByte_r io) as [e1|]; simpl; [failed_stage|].
  all: destruct (encode_r io) as [e2|]; simpl; [failed_stage|].
  all: destruct (flush_r io) as [e3|]; simpl; [failed_stage|].
  all: destruct (decodeErr_r io) as [e4|rpcError]; simpl; [failed_stage|].
  all: destruct (decodeResp_r io) as [e5|v]; simpl; [failed_stage|].
  all: destruct (negb (String.eqb rpcError EmptyString)); simpl; run.
  all: match goal with
       | |- context [returnConn ?c0 ?w2] =>
           destruct (returnConn_total w2 c0) as (w3 & Hret & _ & _)
       end.
  all: rewrite Hret; do 3 eexists; (split; [done|]); eexists;
    (split; [exact Hret|]); (split; [done|]); count_closes.
Qed.

(** A round trip in which no call fails: the connection goes to
    [returnConn] after the five calls on it, and the decoded error string
    decides the error returned. *)
Lemma genericRPC_round_trip w (tgt : string) (rpcType : Z) (args : SyncRequest)
    (resp0 : SyncResponse) io c (w1 : W) (s : string) (v : SyncResponse) :
  getConn tgt (timeout (nt w)) (dial_r io) w = Done ((Some c, None), w1) ->
  writeByte_r io = None -> encode_r io = None -> flush_r io = None ->
  decodeErr_r io = inr s -> decodeResp_r io = inr v ->
  genericRPC tgt rpcType args resp0 io w
  = bind (returnConn c) (fun _ => ret (rpc_error s, v))
      {| nt := nt w1;
         trace := trace w1 ++ round_trip_events c rpcType args (timeout (nt w)) |}.
Proof.
  intros Hget Hwb Hen Hfl Hde Hdr.
  unfold genericRPC, sendRPC, decodeResponse, round_trip_events, rpc_error. run.
  rewrite Hget.
  destruct (0 <? timeout (nt w)); simpl; rewrite Hwb; simpl;
    rewrite Hen; simpl; rewrite Hfl; simpl; rewrite Hde; simpl;
    rewrite Hdr; simpl; rewrite <- ?app_assoc; simpl;
    destruct (negb (String.eqb s EmptyString)); simpl; run; done.
Qed.

(** C5. When the whole round trip succeeds and the decoded error string
    [s] is not empty, [genericRPC] returns the error made of [s], and the
    connection, closed by no stage, is handed to [returnConn]: it joins
    the idle list of its target when the transport is not shut down and
    the list has room. *)
Theorem genericRPC_application_error w (tgt : string) (rpcType : Z)
    (args : SyncRequest) (resp0 : SyncResponse) io c (w1 : W)
    (s : string) (v : SyncResponse) :
  getConn tgt (timeout (nt w)) (dial_r io) w = Done ((Some c, None), w1) ->
  writeByte_r io = None -> encode_r io = None -> flush_r io = None ->
  decodeErr_r io = inr s -> decodeResp_r io = inr v -> s <> EmptyString ->
  let idle := default [] (connPool (nt w1) !! target c) in
  exists w2 w',
    genericRPC tgt rpcType args resp0 io w = Done ((Some (Errorf s []), v), w') /\
    returnConn c w2 = Done (tt, w') /\
    nt w2 = nt w1 /\
    closes (conn c) (trace w2) = closes (conn c) (trace w1) /\
    (shutdownCh (nt w1) = false -> len idle < maxPool (nt w1) ->
     connPool (nt w') = <[target c := idle ++ [c]]> (connPool (nt w1)) /\
     closes (conn c) (trace w') = closes (conn c) (trace w1)).
Proof.
  intros Hget Hwb Hen Hfl Hde Hdr Hs idle.
  rewrite (genericRPC_round_trip w tgt rpcType args resp0 io c w1 s v) by done.
  set (w2 := {| nt := nt w1;
                trace := trace w1 ++ round_trip_events c rpcType args (timeout (nt w)) |}).
  destruct (returnConn_total w2 c) as (w' & Hret & _ & Hadm).
  assert (Hcl : closes (conn c) (trace w2) = closes (conn c) (trace w1)).
  { unfold w2, round_trip_events. destruct (0 <? timeout (nt w)); count_closes. }
  exists w2, w'. unfold bind. rewrite Hret.
  assert (Herr : rpc_error s = Some (Errorf s [])).
  { unfold rpc_error. apply String.eqb_neq in Hs. by rewrite Hs. }
  rewrite Herr. split; [done|]. split; [done|]. split; [done|]. split; [done|].
  intros Hup Hroom. destruct (Hadm Hup Hroom) as [Htr Hpool].
  split; [done|]. by rewrite Htr.
Qed.

(** C3, evaluated. A transport that pooled a connection to [tgt] is
    closed; a later [Sync] to [tgt], whose dial would fail, takes the
    pooled connection and, the peer answering, returns no error;
    [returnConn] then closes the connection. *)
Theorem Sync_after_Close_returns_nil (to : Z) (tgt : string) (k : conn_id)
    (args : SyncRequest) (resp0 v : SyncResponse) :
  let c := {| target := tgt; conn := k |} in
  let io := mkRpcIo (inr k) None None None (inr EmptyString) (inr v) in
  let io_no_dial :=
    mkRpcIo (inl (ExternalError "dial refused")) None None None
            (inr EmptyString) (inr v) in
  exists w1 w2 w3 : W,
    Sync tgt args resp0 io (NewNetworkTransport 1 to) = Done ((None, v), w1) /\
    connPool (nt w1) !! tgt = Some [c] /\
    Close w1 = Done (None, w2) /\
    shutdown (nt w2) = true /\ shutdownCh (nt w2) = true /\
    connPool (nt w2) !! tgt = Some [c] /\
    Sync tgt args resp0 io_no_dial w2 = Done ((None, v), w3) /\
    closes k (trace w3) = 1%nat.
Proof.
  intros c io io_no_dial.
  set (w0 := NewNetworkTransport 1 to : W).
  (* the first call dials and pools the connection *)
  assert (Hget0 : getConn tgt (timeout (nt w0)) (dial_r io) w0
                  = Done ((Some c, None),
                          {| nt := nt w0; trace := trace w0 ++ [EvDial tgt to] |})).
  { unfold getConn. run. by rewrite getPooledConn_none. }
  set (wa := {| nt := nt w0;
                trace := (trace w0 ++ [EvDial tgt to])
                         ++ round_trip_events c rpcSync args (timeout (nt w0)) |}).
  assert (Hret0 : returnConn c wa
                  = Done (tt, with_pool (<[tgt := [c]]> (connPool (nt wa))) wa)).
  { rewrite returnConn_admitted.
    - simpl. by rewrite lookup_empty.
    - done.
    - simpl. rewrite lookup_empty. unfold len. simpl. lia. }
  set (w1 := with_pool (<[tgt := [c]]> (connPool (nt wa))) wa).
  assert (Hlk1 : connPool (nt w1) !! tgt = Some [c]) by apply lookup_insert_eq.
  (* Close leaves the pool alone *)
  set (w2 := closed_world w1).
  assert (Hclose : Close w1 = Done (None, w2)) by (by apply Close_running).
  (* the second call takes the pooled connection *)
  assert (Hget2 : getConn tgt (timeout (nt w2)) (dial_r io_no_dial) w2
                  = Done ((Some c, None),
                          with_pool (<[tgt := []]> (connPool (nt w2))) w2)).
  { unfold getConn. run.
    by rewrite (getPooledConn_top w2 tgt [] c) by exact Hlk1. }
  set (wb := {| nt := nt (with_pool (<[tgt := []]> (connPool (nt w2))) w2);
                trace := trace (with_pool (<[tgt := []]> (connPool (nt w2))) w2)
                         ++ round_trip_events c rpcSync args (timeout (nt w2)) |}).
  assert (Hret2 : returnConn c wb
                  = Done (tt, {| nt := nt wb; trace := trace wb ++ [EvConnClose k] |})).
  { rewrite returnConn_refused; [done|]. by left. }
  exists w1, w2, {| nt := nt wb; trace := trace wb ++ [EvConnClose k] |}.
  split.
  { unfold Sync.
    rewrite (genericRPC_round_trip w0 tgt rpcSync args resp0 io c _ EmptyString v Hget0)
      by done.
    change (bind (returnConn c) (fun _ => ret (rpc_error EmptyString, v)) wa
            = Done ((None, v), w1)).
    unfold bind. by rewrite Hret0. }
  split; [done|]. split; [done|]. split; [done|]. split; [done|]. split; [done|].
  split.
  { unfold Sync.
    rewrite (genericRPC_round_trip w2 tgt rpcSync args resp0 io_no_dial c _ EmptyString v Hget2)
      by done.
    change (bind (returnConn c) (fun _ => ret (rpc_error EmptyString, v)) wb
            = Done ((None, v), {| nt := nt wb; trace := trace wb ++ [EvConnClose k] |})).
    unfold bind. by rewrite Hret2. }
  unfold wb, w2, closed_world, w1, with_pool, wa, round_trip_events. simpl.
  destruct (0 <? to); count_closes.
Qed.

(* ===================================================================== *)
(** ** NetworkTransport: the order of a response on the wire *)
(* ===================================================================== *)

(** C9. A handler that received a reply encodes the error string first,
    empty when the reply carries no error, and then, the first encoding
    having succeeded, the response value, whether the reply carries an
    error or not. [decodeResponse] decodes a string first and the response
    value second, so that what the handler wrote is read back as a reusable
    connection, the response value, and an error exactly when the string is
    not empty. *)
Theorem response_order w (k : conn_id) (hio : handler_io SyncRequest SyncResponse)
    (req : SyncRequest) (resp : RPCResponse SyncResponse) :
  readByte_r hio = inr rpcSync -> decodeReq_r hio = inr req ->
  dispatch_r hio = Selected tt -> reply_r hio = Selected resp ->
  let respErr := match Error resp with
                 | Some e => Error_msg Sprintf e
                 | None => EmptyString
                 end in
  (Error resp = None -> respErr = EmptyString) /\
  (exists w',
     handleCommand Sprintf k hio w
     = Done (match encodeErr_r hio with
             | Some e => Some e
             | None => encodeResp_r hio
             end, w') /\
     nt w' = nt w /\
     trace w' = trace w ++
       [EvReadByte k; EvDecodeReq k; EvDispatch req; EvEncodeString k respErr] ++
       match encodeErr_r hio with
       | Some _ => []
       | None => [EvEncodeResponse k (Response resp)]
       end) /\
  (forall c (resp0 : SyncResponse) io (w0 : W),
     exists canReturn err v w1 rest,
       decodeResponse c resp0 io w0 = Done ((canReturn, err, v), w1) /\
       trace w1 = trace w0 ++ EvDecodeString (conn c) :: rest /\
       match decodeErr_r io, decodeResp_r io with
       | inl e, _ =>
           rest = [EvConnClose (conn c)] /\ canReturn = false /\ err = Some e
       | inr s, inl e =>
           rest = [EvDecodeResp (conn c); EvConnClose (conn c)] /\
           canReturn = false /\ err = Some e
       | inr s, inr v1 =>
           rest = [EvDecodeResp (conn c)] /\
           canReturn = true /\ err = rpc_error s /\ v = v1
       end) /\
  (forall c (resp0 : SyncResponse) io (w0 : W),
     decodeErr_r io = inr respErr -> decodeResp_r io = inr (Response resp) ->
     exists w1,
       decodeResponse c resp0 io w0
       = Done ((true, rpc_error respErr, Response resp), w1)).
Proof.
  intros Hrb Hdq Hdp Hrp respErr.
  split; [|split; [|split]].
  - intros Hnone. unfold respErr. by rewrite Hnone.
  - unfold handleCommand. run. rewrite Hrb. simpl. run.
    rewrite Hdq, Hdp. simpl. rewrite Hrp. simpl.
    fold respErr.
    destruct (encodeErr_r hio) as [e1|]; simpl.
    + eexists. split; [done|]. split; [done|]. simpl.
      by rewrite <- !app_assoc.
    + destruct (encodeResp_r hio) as [e2|]; simpl;
        (eexists; split; [done|]; split; [done|]; simpl;
         by rewrite <- !app_assoc).
  - intros c resp0 io w0. unfold decodeResponse, Release, rpc_error. run.
    destruct (decodeErr_r io) as [e1|s]; simpl.
    { do 5 eexists. split; [done|]. simpl. rewrite <- app_assoc. done. }
    destruct (decodeResp_r io) as [e2|v1]; simpl.
    { do 5 eexists. split; [done|]. simpl. rewrite <- !app_assoc. done. }
    destruct (negb (String.eqb s EmptyString)); simpl;
      (do 5 eexists; split; [done|]; simpl; rewrite <- !app_assoc; done).
  - intros c resp0 io w0 Hde Hdr. unfold decodeResponse, rpc_error. run.
    rewrite Hde. simpl. rewrite Hdr. simpl.
    destruct (negb (String.eqb respErr EmptyString)); by eexists.
Qed.


(* ===================================================================== *)
(** ** NetworkTransport: the inbound side *)
(* ===================================================================== *)

Lemma count_events_app (p : event SyncRequest SyncResponse -> bool)
    (tr1 tr2 : list (event SyncRequest SyncResponse)) :
  count_events p (tr1 ++ tr2) = (count_events p tr1 + count_events p tr2)%nat.
Proof. unfold count_events. by rewrite List.filter_app, length_app. Qed.




(** X12. A type byte other than [rpcSync] is an error naming the byte:
    nothing after the byte is read, decoded, dispatched or encoded. *)
Theorem handleCommand_unknown_tag w (k : conn_id)
    (hio : handler_io SyncRequest SyncResponse) (b : Z) :
  readByte_r hio = inr b -> b <> rpcSync ->
  handleCommand Sprintf k hio w
  = Done (Some (Errorf "unknown rpc type %d" [b]),
          {| nt := nt w; trace := trace w ++ [EvReadByte k] |}).
Proof.
  intros Hrb Hne. unfold handleCommand. run. rewrite Hrb. simpl.
  destruct (Z.eqb_spec b rpcSync); [done|]. done.
Qed.

(** X13. The shutdown signal preempts a command: received while the
    command waits to be dispatched, or while the handler waits for the
    reply, it makes [handleCommand] return [ErrTransportShutdown] with no
    response encoded; in the first case the command was not dispatched. *)
Theorem handleCommand_shutdown_preempts w (k : conn_id)
    (hio : handler_io SyncRequest SyncResponse) (req : SyncRequest) :
  readByte_r hio = inr rpcSync -> decodeReq_r hio = inr req ->
  (dispatch_r hio = ShutdownSeen ->
   handleCommand Sprintf k hio w
   = Done (Some ErrTransportShutdown,
           {| nt := nt w; trace := trace w ++ [EvReadByte k; EvDecodeReq k] |})) /\
  (dispatch_r hio = Selected tt -> reply_r hio = ShutdownSeen ->
   handleCommand Sprintf k hio w
   = Done (Some ErrTransportShutdown,
           {| nt := nt w;
              trace := trace w ++ [EvReadByte k; EvDecodeReq k; EvDispatch req] |})).
Proof.
  intros Hrb Hdq. split.
  - intros Hdp. unfold handleCommand. run. rewrite Hrb. simpl. run.
    rewrite Hdq, Hdp. simpl. by rewrite <- app_assoc.
  - intros Hdp Hrp. unfold handleCommand. run. rewrite Hrb. simpl. run.
    rewrite Hdq, Hdp. simpl. rewrite Hrp. simpl. by rewrite <- !app_assoc.
Qed.



Lemma handleConn_loop_served (k : conn_id) (cmd : SyncRequest * RPCResponse SyncResponse)
    (rest : list (handler_io SyncRequest SyncResponse * option error)) w :
  handleConn_loop Sprintf k (served cmd :: rest) w
  = handleConn_loop Sprintf k rest
      {| nt := nt w; trace := trace w ++ served_events Sprintf k (fst cmd) (snd cmd) |}.
Proof.
  unfold served, served_events. simpl. unfold handleCommand. run.
  f_equal. f_equal. by rewrite <- !app_assoc.
Qed.

(** X15. Commands on one connection are served strictly one after the
    other: for commands that are all served without failure and a peer
    that then closes the stream, the calls made are, command by command,
    read, decode, dispatch, encode the error string, encode the response,
    flush, and at the end of the stream the read that fails and the close
    of the connection. The end of the stream is not logged. *)
Theorem handleConn_serves_in_order w (k : conn_id)
    (cmds : list (SyncRequest * RPCResponse SyncResponse))
    (hio : handler_io SyncRequest SyncResponse) (flushed : option error)
    (rest : list (handler_io SyncRequest SyncResponse * option error)) :
  readByte_r hio = inl EOF ->
  handleConn Sprintf k (map served cmds ++ (hio, flushed) :: rest) w
  = Done ([], {| nt := nt w;
                 trace := trace w
                          ++ concat (map (fun cmd => served_events Sprintf k (fst cmd) (snd cmd)) cmds)
                          ++ [EvReadByte k; EvConnClose k] |}).
Proof.
  intros Heof. unfold handleConn.
  assert (Hloop : forall w0,
            handleConn_loop Sprintf k (map served cmds ++ (hio, flushed) :: rest) w0
            = Done ([], {| nt := nt w0;
                           trace := trace w0
                             ++ concat (map (fun cmd => served_events Sprintf k (fst cmd) (snd cmd)) cmds)
                             ++ [EvReadByte k] |})).
  { induction cmds as [|cmd cmds IH]; intros w0.
    - simpl. unfold bind at 1. unfold handleCommand. run. by rewrite Heof.
    - change (map served (cmd :: cmds) ++ (hio, flushed) :: rest)
        with (served cmd :: (map served cmds ++ (hio, flushed) :: rest)).
      rewrite handleConn_loop_served, IH. simpl. by rewrite <- !app_assoc. }
  unfold bind at 1. rewrite Hloop. run. by rewrite <- !app_assoc.
Qed.

Lemma listen_keeps_state (script : list (error + conn_id)) : forall w,
  exists r, listen script w = Done (r, w).
Proof.
  induction script as [|[e|c] rest IH]; intros w; simpl.
  - by eexists.
  - unfold IsShutdown. run. destruct (shutdownCh (nt w)); [by eexists|].
    destruct (IH w) as [r Hr]. unfold bind. rewrite Hr. by eexists.
  - destruct (IH w) as [r Hr]. unfold bind. rewrite Hr. by eexists.
Qed.

(** X16. While the transport is not shut down the accept loop never
    returns, whatever [Accept] answers: it starts a handler for every
    connection accepted and logs every failure, in order. *)
Theorem listen_survives_accept_errors w (script : list (error + conn_id)) :
  shutdownCh (nt w) = false ->
  listen script w
  = Done (Waiting (map (fun a => match a with
                                 | inl e => AcceptFailed e
                                 | inr c => Spawned c
                                 end) script), w).
Proof.
  intros Hup. induction script as [|[e|c] rest IH]; simpl.
  - done.
  - unfold IsShutdown. run. rewrite Hup. unfold bind. by rewrite IH.
  - unfold bind. by rewrite IH.
Qed.

(** X17. [Close] stops the accept loop: after it, the loop returns at the
    first [Accept] that fails, having started a handler for each
    connection accepted before and logged nothing. *)
Theorem listen_stops_after_Close w (cs : list conn_id) (e : error)
    (rest : list (error + conn_id)) :
  consistent w ->
  exists w1, Close w = Done (None, w1) /\
    listen (map inr cs ++ inl e :: rest) w1 = Done (Returned (map Spawned cs), w1).
Proof.
  intros Hcons.
  assert (Hclose : exists w1, Close w = Done (None, w1) /\ shutdownCh (nt w1) = true).
  { unfold consistent in Hcons. destruct (shutdown (nt w)) eqn:Hs.
    - exists w. split; [by apply Close_stopped|]. by rewrite <- Hcons.
    - exists (closed_world w). split; [by apply Close_running|done]. }
  destruct Hclose as (w1 & Hclose & Hdown). exists w1. split; [done|].
  induction cs as [|c cs IH]; simpl.
  - unfold IsShutdown. run. by rewrite Hdown.
  - unfold bind. by rewrite IH.
Qed.


(* ===================================================================== *)
(** ** NetworkTransport: what one outbound call does to pool and trace *)
(* ===================================================================== *)

(** [getConn] pops the last idle connection of the target, or, the target
    having none, dials. *)
Lemma getConn_detail w (tgt : string) (to : Z) (dr : error + conn_id) :
  (exists conns c,
     connPool (nt w) !! tgt = Some (conns ++ [c]) /\
     getConn tgt to dr w
     = Done ((Some c, None), with_pool (<[tgt := conns]> (connPool (nt w))) w)) \/
  (idle w tgt = [] /\ exists k, dr = inr k /\
     getConn tgt to dr w
     = Done ((Some {| target := tgt; conn := k |}, None),
             {| nt := nt w; trace := trace w ++ [EvDial tgt to] |})) \/
  (idle w tgt = [] /\ exists e, dr = inl e /\
     getConn tgt to dr w
     = Done ((None, Some e), {| nt := nt w; trace := trace w ++ [EvDial tgt to] |})).
Proof.
  unfold idle.
  destruct (connPool (nt w) !! tgt) as [conns|] eqn:Hlk.
  - assert (Hshape : conns = [] \/ exists conns0 c0, conns = conns0 ++ [c0]).
    { clear Hlk. induction conns as [|c0 conns0 _] using rev_ind; [by left|].
      right. by exists conns0, c0. }
    destruct Hshape as [->|(conns0 & c0 & ->)].
    + right. unfold getConn. run.
      rewrite getPooledConn_none by (by rewrite Hlk).
      destruct dr as [e|k]; [right|left]; (split; [done|]); by eexists.
    + left. exists conns0, c0. split; [done|].
      unfold getConn. run. by rewrite (getPooledConn_top w tgt conns0 c0).
  - right. unfold getConn. run.
    rewrite getPooledConn_none by (by rewrite Hlk).
    destruct dr as [e|k]; [right|left]; (split; [done|]); by eexists.
Qed.

(** Closes a case of [genericRPC_held] in which a stage failed. *)
Ltac failed_held :=
  cbn zeta; (split; [done|]); (split; [done|]); (split; [done|]);
  (split; [done|]); right; (split; [done|]); (split; [done|]);
  rewrite <- ?app_assoc; simpl; done.

(** With a connection in hand: the calls made on it close nothing, begin
    with the deadline exactly when a timeout is configured, and end either
    in [returnConn] (every call succeeded) or in one close of the
    connection and an error. *)
Lemma genericRPC_held w (tgt : string) (rpcType : Z) (args : SyncRequest)
    (resp0 : SyncResponse) io c (w1 : W) :
  getConn tgt (timeout (nt w)) (dial_r io) w = Done ((Some c, None), w1) ->
  exists r rest,
    let evs := (if 0 <? timeout (nt w)
                then [EvSetDeadline (conn c) (timeout (nt w))] else [])
               ++ EvWriteByte (conn c) rpcType :: rest in
    (forall j : conn_id, closes j rest = 0%nat) /\
    count_events is_stream_close rest = 0%nat /\
    count_events is_dial rest = 0%nat /\
    count_events is_deadline rest = 0%nat /\
    ((round_trip_ok io = true /\
      genericRPC tgt rpcType args resp0 io w
      = bind (returnConn c) (fun _ => ret r)
          {| nt := nt w1; trace := trace w1 ++ evs |}) \/
     (round_trip_ok io = false /\ fst r <> None /\
      genericRPC tgt rpcType args resp0 io w
      = Done (r, {| nt := nt w1;
                    trace := trace w1 ++ evs ++ [EvConnClose (conn c)] |}))).
Proof.
  intros Hget. unfold genericRPC, sendRPC, decodeResponse, Release, round_trip_ok.
  run. rewrite Hget.
  destruct (0 <? timeout (nt w)); simpl.
  all: destruct (writeByte_r io) as [e1|]; simpl;
    [exists (Some e1, resp0), []; failed_held|].
  all: destruct (encode_r io) as [e2|]; simpl;
    [exists (Some e2, resp0), [EvEncodeArgs (conn c) args]; failed_held|].
  all: destruct (flush_r io) as [e3|]; simpl;
    [exists (Some e3, resp0), [EvEncodeArgs (conn c) args; EvFlush (conn c)];
     failed_held|].
  all: destruct (decodeErr_r io) as [e4|rpcError]; simpl;
    [exists (Some e4, resp0),
       [EvEncodeArgs (conn c) args; EvFlush (conn c); EvDecodeString (conn c)];
     failed_held|].
  all: destruct (decodeResp_r io) as [e5|v]; simpl;
    [exists (Some e5, resp0),
       [EvEncodeArgs (conn c) args; EvFlush (conn c); EvDecodeString (conn c);
        EvDecodeResp (conn c)];
     failed_held|].
  all: exists (rpc_error rpcError, v),
         [EvEncodeArgs (conn c) args; EvFlush (conn c); EvDecodeString (conn c);
          EvDecodeResp (conn c)].
  all: cbn zeta; (split; [done|]); (split; [done|]); (split; [done|]);
    (split; [done|]); left; (split; [done|]).
  all: unfold rpc_error; destruct (negb (String.eqb rpcError EmptyString)); simpl; run.
  all: unfold returnConn, IsShutdown, Release; run; rewrite <- ?app_assoc; simpl; done.
Qed.


(** The end of a call that holds connection [c]: the connection joins the
    idle list of its target, nothing being closed, or it is closed once
    and the pool is as it was when the connection was taken. *)
Lemma genericRPC_finish w (tgt : string) (rpcType : Z) (args : SyncRequest)
    (resp0 : SyncResponse) io c (w1 : W) :
  getConn tgt (timeout (nt w)) (dial_r io) w = Done ((Some c, None), w1) ->
  exists r w' evs,
    genericRPC tgt rpcType args resp0 io w = Done (r, w') /\
    trace w' = trace w1 ++ evs /\
    shutdown (nt w') = shutdown (nt w1) /\
    shutdownCh (nt w') = shutdownCh (nt w1) /\
    maxPool (nt w') = maxPool (nt w1) /\
    timeout (nt w') = timeout (nt w1) /\
    count_events is_stream_close evs = 0%nat /\
    count_events is_dial evs = 0%nat /\
    ((shutdownCh (nt w1) = false /\
      len (idle w1 (target c)) < maxPool (nt w1) /\
      round_trip_ok io = true /\
      connPool (nt w') = <[target c := idle w1 (target c) ++ [c]]> (connPool (nt w1)) /\
      forall j : conn_id, closes j evs = 0%nat) \/
     (connPool (nt w') = connPool (nt w1) /\
      (round_trip_ok io = true ->
       shutdownCh (nt w1) = true \/ maxPool (nt w1) <= len (idle w1 (target c))) /\
      forall j : conn_id, closes j evs = if (conn c =? j)%nat then 1%nat else 0%nat)).
Proof.
  intros Hget.
  destruct (genericRPC_held w tgt rpcType args resp0 io c w1 Hget)
    as (r & rest & Hheld).
  cbn zeta in Hheld.
  set (evs := (if 0 <? timeout (nt w)
               then [EvSetDeadline (conn c) (timeout (nt w))] else [])
              ++ EvWriteByte (conn c) rpcType :: rest) in *.
  destruct Hheld as (Hcl & Hsc & Hdi & _ & Hend).
  assert (Hcl_evs : forall j : conn_id, closes j evs = 0%nat).
  { intros j. unfold evs. rewrite closes_app. simpl. rewrite Hcl.
    by destruct (0 <? timeout (nt w)). }
  assert (Hsc_evs : count_events is_stream_close evs = 0%nat).
  { unfold evs. rewrite count_events_app.
    change (count_events is_stream_close (EvWriteByte (conn c) rpcType :: rest))
      with (count_events is_stream_close rest).
    rewrite Hsc. by destruct (0 <? timeout (nt w)). }
  assert (Hdi_evs : count_events (SyncRequest:=SyncRequest) is_dial evs = 0%nat).
  { unfold evs. rewrite count_events_app.
    change (count_events is_dial (EvWriteByte (conn c) rpcType :: rest))
      with (count_events is_dial rest).
    rewrite Hdi. by destruct (0 <? timeout (nt w)). }
  clearbody evs.
  destruct Hend as [(Hok & Hrun)|(Hko & _ & Hrun)].
  - set (wh := {| nt := nt w1; trace := trace w1 ++ evs |}) in *.
    destruct (shutdownCh (nt w1)) eqn:Hch.
    + exists r, {| nt := nt wh; trace := trace wh ++ [EvConnClose (conn c)] |}, (evs ++ [EvConnClose (conn c)]).
      rewrite Hrun. unfold bind.
      rewrite returnConn_refused by (left; exact Hch).
      unfold ret. simpl. rewrite <- app_assoc, !count_events_app, Hsc_evs, Hdi_evs.
      repeat (split; [done|]). right. split; [done|]. split; [by left|].
      intros j. rewrite closes_app, Hcl_evs. simpl. lia.
    + destruct (Z.lt_ge_cases (len (idle w1 (target c))) (maxPool (nt w1))) as [Hroom|Hfull].
      * exists r, (with_pool (<[target c := idle wh (target c) ++ [c]]> (connPool (nt wh))) wh), evs.
        rewrite Hrun. unfold bind.
        rewrite returnConn_admitted by done.
        unfold ret. simpl. repeat (split; [done|]). left. done.
      * exists r, {| nt := nt wh; trace := trace wh ++ [EvConnClose (conn c)] |}, (evs ++ [EvConnClose (conn c)]).
        rewrite Hrun. unfold bind.
        rewrite returnConn_refused by (right; exact Hfull).
        unfold ret. simpl. rewrite <- app_assoc, !count_events_app, Hsc_evs, Hdi_evs.
        repeat (split; [done|]). right. split; [done|]. split; [by right|].
        intros j. rewrite closes_app, Hcl_evs. simpl. lia.
  - exists r, {| nt := nt w1; trace := trace w1 ++ evs ++ [EvConnClose (conn c)] |},
      (evs ++ [EvConnClose (conn c)]).
    rewrite Hrun. simpl. rewrite !count_events_app, Hsc_evs, Hdi_evs.
    repeat (split; [done|]). right. split; [done|].
    split; [intros; congruence|].
    intros j. rewrite closes_app, Hcl_evs. simpl. lia.
Qed.


(** One outbound call, from the state it starts in: it returns; it leaves
    the shutdown flag and signal, [maxPool] and the timeout alone; it never
    closes the stream layer; and for the connection [c] it takes (the last
    idle one of the target, else the one dialed) it ends with [c] idle
    again and nothing closed, or with [c] closed once, nothing else closed
    and the pool without [c]. *)
Lemma genericRPC_summary w (tgt : string) (rpcType : Z) (args : SyncRequest)
    (resp0 : SyncResponse) io :
  exists r w' evs,
    genericRPC tgt rpcType args resp0 io w = Done (r, w') /\
    trace w' = trace w ++ evs /\
    shutdown (nt w') = shutdown (nt w) /\
    shutdownCh (nt w') = shutdownCh (nt w) /\
    maxPool (nt w') = maxPool (nt w) /\
    timeout (nt w') = timeout (nt w) /\
    count_events is_stream_close evs = 0%nat /\
    ((idle w tgt = [] /\ (exists e, dial_r io = inl e) /\
      connPool (nt w') = connPool (nt w) /\
      forall j : conn_id, closes j evs = 0%nat) \/
     exists c (base : gmap string (list netConn)),
       ((idle w tgt = [] /\ dial_r io = inr (conn c) /\ target c = tgt /\
         base = connPool (nt w)) \/
        (exists conns, connPool (nt w) !! tgt = Some (conns ++ [c]) /\
                       base = <[tgt := conns]> (connPool (nt w)))) /\
       ((shutdownCh (nt w) = false /\
         len (default [] (base !! target c)) < maxPool (nt w) /\
         round_trip_ok io = true /\
         connPool (nt w') = <[target c := default [] (base !! target c) ++ [c]]> base /\
         forall j : conn_id, closes j evs = 0%nat) \/
        (connPool (nt w') = base /\
         (round_trip_ok io = true ->
          shutdownCh (nt w) = true \/
          maxPool (nt w) <= len (default [] (base !! target c))) /\
         forall j : conn_id, closes j evs = if (conn c =? j)%nat then 1%nat else 0%nat))).
Proof.
  destruct (getConn_detail w tgt (timeout (nt w)) (dial_r io))
    as [(conns & c & Hlk & Hget)|[(Hidle & k & Hdr & Hget)|(Hidle & e & Hdr & Hget)]].
  - destruct (genericRPC_finish w tgt rpcType args resp0 io c _ Hget)
      as (r & w' & evs & Hrun & Htr & Hs & Hch & Hmp & Hto & Hsc & _ & Hend).
    exists r, w', evs. simpl in *.
    repeat (split; [done|]). right.
    exists c, (<[tgt := conns]> (connPool (nt w))).
    split; [right; by exists conns|]. exact Hend.
  - destruct (genericRPC_finish w tgt rpcType args resp0 io _ _ Hget)
      as (r & w' & evs & Hrun & Htr & Hs & Hch & Hmp & Hto & Hsc & _ & Hend).
    exists r, w', ([EvDial tgt (timeout (nt w))] ++ evs). simpl in *.
    split; [done|]. split; [by rewrite Htr, <- app_assoc|].
    repeat (split; [done|]). right.
    exists {| target := tgt; conn := k |}, (connPool (nt w)).
    split; [by left|]. exact Hend.
  - exists (Some e, resp0), {| nt := nt w; trace := trace w ++ [EvDial tgt (timeout (nt w))] |},
      [EvDial tgt (timeout (nt w))].
    split.
    { unfold genericRPC. run. by rewrite Hget. }
    simpl. repeat (split; [done|]). left.
    split; [done|]. split; [by exists e|]. done.
Qed.


(* ===================================================================== *)
(** ** NetworkTransport: the fate of the connection a call takes *)
(* ===================================================================== *)

(** X18. A call never leaks the connection it took and never closes
    another one: when it returns, either the connection is the last idle
    one of its target and the call closed nothing, or the pool is as it
    was while the connection was held and the call closed that connection
    exactly once and no other. *)
Theorem genericRPC_pools_or_closes w (tgt : string) (rpcType : Z)
    (args : SyncRequest) (resp0 : SyncResponse) io c (w1 : W) :
  getConn tgt (timeout (nt w)) (dial_r io) w = Done ((Some c, None), w1) ->
  exists r w',
    genericRPC tgt rpcType args resp0 io w = Done (r, w') /\
    ((last (idle w' (target c)) = Some c /\
      forall j : conn_id, closes j (trace w') = closes j (trace w1)) \/
     (connPool (nt w') = connPool (nt w1) /\
      closes (conn c) (trace w') = S (closes (conn c) (trace w1)) /\
      forall j : conn_id, j <> conn c -> closes j (trace w') = closes j (trace w1))).
Proof.
  intros Hget.
  destruct (genericRPC_finish w tgt rpcType args resp0 io c w1 Hget)
    as (r & w' & evs & Hrun & Htr & _ & _ & _ & _ & _ & _ & Hend).
  exists r, w'. split; [done|].
  destruct Hend as [(_ & _ & _ & Hpool & Hcl)|(Hpool & _ & Hcl)].
  - left. split.
    + unfold idle. rewrite Hpool, lookup_insert_eq. simpl. apply last_snoc.
    + intros j. rewrite Htr, closes_app, Hcl. lia.
  - right. split; [done|]. split.
    + rewrite Htr, closes_app, Hcl, Nat.eqb_refl. lia.
    + intros j Hne. rewrite Htr, closes_app, Hcl.
      destruct (Nat.eqb_spec (conn c) j); [congruence|lia].
Qed.

Lemma returnConn_trace w c :
  exists w1, returnConn c w = Done (tt, w1) /\
    (trace w1 = trace w \/ trace w1 = trace w ++ [EvConnClose (conn c)]).
Proof.
  destruct (shutdownCh (nt w)) eqn:Hch.
  - eexists. split; [apply returnConn_refused; by left|]. by right.
  - destruct (Z.lt_ge_cases (len (default [] (connPool (nt w) !! target c))) (maxPool (nt w))).
    + eexists. split; [by apply returnConn_admitted|]. by left.
    + eexists. split; [apply returnConn_refused; by right|]. by right.
Qed.

(** X19. The I/O deadline is set on the connection exactly when the
    configured timeout is positive, once, and before the first byte is
    written: a pooled connection never goes out with the deadline of an
    earlier call, and with a timeout of zero no deadline is ever set. *)
Theorem deadline_set_iff_timeout w (tgt : string) (rpcType : Z)
    (args : SyncRequest) (resp0 : SyncResponse) io c (w1 : W) :
  getConn tgt (timeout (nt w)) (dial_r io) w = Done ((Some c, None), w1) ->
  exists r w' rest,
    genericRPC tgt rpcType args resp0 io w = Done (r, w') /\
    trace w' = trace w1
               ++ (if 0 <? timeout (nt w)
                   then [EvSetDeadline (conn c) (timeout (nt w))] else [])
               ++ EvWriteByte (conn c) rpcType :: rest /\
    count_events is_deadline rest = 0%nat.
Proof.
  intros Hget.
  destruct (genericRPC_held w tgt rpcType args resp0 io c w1 Hget)
    as (r & rest & Hheld).
  cbn zeta in Hheld. destruct Hheld as (_ & _ & _ & Hdl & Hend).
  destruct Hend as [(_ & Hrun)|(_ & _ & Hrun)].
  - match type of Hrun with
    | _ = bind _ _ ?wh => destruct (returnConn_trace wh c) as (w' & Hret & Htr)
    end.
    rewrite Hrun. unfold bind. rewrite Hret. unfold ret. simpl in Htr.
    destruct Htr as [Htr|Htr].
    + exists r, w', rest. split; [done|]. by rewrite Htr, <- ?app_assoc.
    + exists r, w', (rest ++ [EvConnClose (conn c)]). split; [done|].
      split; [by rewrite Htr, <- ?app_assoc|].
      rewrite count_events_app, Hdl. done.
  - eexists r, _, (rest ++ [EvConnClose (conn c)]). split; [done|]. simpl.
    split; [by rewrite <- ?app_assoc|].
    rewrite count_events_app, Hdl. done.
Qed.

(** X20. On a transport that is shut down no call pools its connection:
    the connection it took, idle or dialed, is closed once by the end of
    the call even when the whole round trip succeeded, and the pool is
    left without it. *)
Theorem shut_down_transport_pools_nothing w (tgt : string) (rpcType : Z)
    (args : SyncRequest) (resp0 : SyncResponse) io c (w1 : W) :
  shutdownCh (nt w) = true ->
  getConn tgt (timeout (nt w)) (dial_r io) w = Done ((Some c, None), w1) ->
  exists r w',
    genericRPC tgt rpcType args resp0 io w = Done (r, w') /\
    connPool (nt w') = connPool (nt w1) /\
    closes (conn c) (trace w') = S (closes (conn c) (trace w1)) /\
    forall t : string, exists taken : list netConn, idle w t = idle w' t ++ taken.
Proof.
  intros Hdown Hget.
  destruct (genericRPC_finish w tgt rpcType args resp0 io c w1 Hget)
    as (r & w' & evs & Hrun & Htr & _ & _ & _ & _ & _ & _ & Hend).
  assert (Hdown1 : shutdownCh (nt w1) = true).
  { destruct (getConn_cases w tgt (timeout (nt w)) (dial_r io))
      as [(c0 & w0 & Hget0 & [_ Hch] & _)|(e & _ & Hget0)]; [|congruence].
    rewrite Hget in Hget0. injection Hget0 as _ <-. congruence. }
  exists r, w'. split; [done|].
  destruct Hend as [(Hup & _)|(Hpool & _ & Hcl)]; [congruence|].
  split; [done|]. split.
  { rewrite Htr, closes_app, Hcl, Nat.eqb_refl. lia. }
  intros t. unfold idle. rewrite Hpool.
  destruct (getConn_detail w tgt (timeout (nt w)) (dial_r io))
    as [(conns & c0 & Hlk & Hget0)|[(_ & k & _ & Hget0)|(_ & e & _ & Hget0)]];
    rewrite Hget in Hget0; [| |done].
  - injection Hget0 as _ ->. simpl.
    destruct (decide (tgt = t)) as [->|Hne].
    + rewrite lookup_insert_eq, Hlk. simpl. by exists [c0].
    + rewrite lookup_insert_ne by done. exists []. by rewrite app_nil_r.
  - injection Hget0 as _ ->. simpl. exists []. by rewrite app_nil_r.
Qed.


(* ===================================================================== *)
(** ** NetworkTransport: invariants over sequences of calls *)
(* ===================================================================== *)

Lemma Close_cases w :
  consistent w ->
  exists w1, Close w = Done (None, w1) /\ consistent w1 /\
    shutdown (nt w1) = true /\
    connPool (nt w1) = connPool (nt w) /\
    maxPool (nt w1) = maxPool (nt w) /\
    timeout (nt w1) = timeout (nt w) /\
    trace w1 = trace w ++ (if shutdown (nt w) then [] else [EvStreamClose]).
Proof.
  unfold consistent. intros Hcons. destruct (shutdown (nt w)) eqn:Hs.
  - exists w. rewrite Close_stopped by done. rewrite app_nil_r.
    repeat split; try done. by rewrite Hs.
  - exists (closed_world w). rewrite Close_running by done. done.
Qed.

(** The pool a call works on once it holds its connection is the pool it
    found, less that connection. *)
Lemma taken_from_pool w (tgt : string) c (base : gmap string (list netConn)) :
  (idle w tgt = [] /\ target c = tgt /\ base = connPool (nt w)) \/
  (exists conns, connPool (nt w) !! tgt = Some (conns ++ [c]) /\
                 base = <[tgt := conns]> (connPool (nt w))) ->
  forall t : string, exists taken : list netConn,
    idle w t = default [] (base !! t) ++ taken /\ (taken = [] \/ (taken = [c] /\ t = tgt)).
Proof.
  intros [(_ & _ & ->)|(conns & Hlk & ->)] t; unfold idle.
  - exists []. rewrite app_nil_r. split; [done|by left].
  - destruct (decide (tgt = t)) as [->|Hne].
    + rewrite lookup_insert_eq, Hlk. simpl. exists [c]. split; [done|by right].
    + rewrite lookup_insert_ne by done. exists []. rewrite app_nil_r.
      split; [done|by left].
Qed.

Lemma genericRPC_keeps_bound w (tgt : string) (rpcType : Z) (args : SyncRequest)
    (resp0 : SyncResponse) io r (w' : W) :
  pool_bounded w -> genericRPC tgt rpcType args resp0 io w = Done (r, w') ->
  pool_bounded w'.
Proof.
  intros Hb Hrun.
  destruct (genericRPC_summary w tgt rpcType args resp0 io)
    as (r0 & w0 & evs & Hrun0 & _ & _ & _ & Hmp & _ & _ & Hend).
  rewrite Hrun in Hrun0. injection Hrun0 as <- <-.
  unfold pool_bounded, idle in *. rewrite Hmp.
  destruct Hend as [(_ & _ & -> & _)|(c & base & Htaken & Hend)]; [done|].
  assert (Htk : forall t : string, exists taken : list netConn,
            idle w t = default [] (base !! t) ++ taken /\
            (taken = [] \/ (taken = [c] /\ t = tgt))).
  { apply taken_from_pool. destruct Htaken as [(H1 & _ & H2 & H3)|H]; [by left|by right]. }
  assert (Hbase : forall t : string, len (default [] (base !! t)) <= Z.max 0 (maxPool (nt w))).
  { intros t. destruct (Htk t) as (taken & Heq & _). specialize (Hb t).
    unfold idle in Heq. rewrite Heq, len_app in Hb. pose proof (len_nonneg taken). lia. }
  intros t.
  destruct Hend as [(_ & Hroom & _ & -> & _)|(-> & _)]; [|done].
  destruct (decide (target c = t)) as [<-|Hne].
  - rewrite lookup_insert_eq. simpl. rewrite len_snoc. lia.
  - by rewrite lookup_insert_ne.
Qed.

Lemma genericRPC_keeps_keys w (tgt : string) (rpcType : Z) (args : SyncRequest)
    (resp0 : SyncResponse) io r (w' : W) :
  pool_keyed w -> genericRPC tgt rpcType args resp0 io w = Done (r, w') ->
  pool_keyed w'.
Proof.
  intros Hk Hrun.
  destruct (genericRPC_summary w tgt rpcType args resp0 io)
    as (r0 & w0 & evs & Hrun0 & _ & _ & _ & _ & _ & _ & Hend).
  rewrite Hrun in Hrun0. injection Hrun0 as <- <-.
  unfold pool_keyed, idle in *.
  destruct Hend as [(_ & _ & -> & _)|(c & base & Htaken & Hend)]; [done|].
  assert (Htk : forall t : string, exists taken : list netConn,
            idle w t = default [] (base !! t) ++ taken /\
            (taken = [] \/ (taken = [c] /\ t = tgt))).
  { apply taken_from_pool. destruct Htaken as [(H1 & _ & H2 & H3)|H]; [by left|by right]. }
  assert (Hbase : forall (t : string) c0, c0 ∈ default [] (base !! t) -> target c0 = t).
  { intros t c0 Hin. destruct (Htk t) as (taken & Heq & _). apply Hk.
    unfold idle in Heq. rewrite Heq. apply elem_of_app. by left. }
  intros t c0.
  destruct Hend as [(_ & _ & _ & -> & _)|(-> & _)]; [|by apply Hbase].
  destruct (decide (target c = t)) as [<-|Hne].
  - rewrite lookup_insert_eq. simpl. intros [Hin|Hin]%elem_of_app.
    + by apply Hbase.
    + apply list_elem_of_singleton in Hin. by subst.
  - rewrite lookup_insert_ne by done. by apply Hbase.
Qed.

(** A property of the pool and of [maxPool] that every call keeps holds
    after every sequence of calls. *)
Lemma run_calls_invariant (I : W -> Prop)
    (cs : list (call SyncRequest SyncResponse)) : forall w,
  (forall w1 w2 : W, I w1 -> connPool (nt w2) = connPool (nt w1) ->
                     maxPool (nt w2) = maxPool (nt w1) -> I w2) ->
  (forall (w1 : W) tgt rpcType args resp0 io r w2,
      I w1 -> genericRPC tgt rpcType args resp0 io w1 = Done (r, w2) -> I w2) ->
  consistent w -> I w ->
  exists w', run_calls cs w = Done (tt, w') /\ consistent w' /\ I w'.
Proof.
  induction cs as [|[|tgt args resp0 io] cs IH]; intros w Hpool Hcall Hcons HI.
  - by exists w.
  - destruct (Close_cases w Hcons) as (w1 & Hclose & Hcons1 & _ & Hp & Hm & _).
    destruct (IH w1 Hpool Hcall Hcons1) as (w' & Hrun & Hres); [by apply (Hpool w)|].
    exists w'. simpl. unfold bind. by rewrite Hclose.
  - destruct (genericRPC_summary w tgt rpcSync args resp0 io)
      as (r & w1 & evs & Hrun1 & _ & Hs & Hch & _).
    destruct (IH w1 Hpool Hcall) as (w' & Hrun & Hres).
    + unfold consistent in *. congruence.
    + by apply (Hcall w tgt rpcSync args resp0 io r).
    + exists w'. simpl. unfold bind, Sync. by rewrite Hrun1.
Qed.

(** X21. Whatever sequence of [Sync] and [Close] calls a transport serves,
    no call panics or waits for ever, and no target ever has more than
    [maxPool] idle connections (none at all when [maxPool] is not
    positive). *)
Theorem calls_never_exceed_maxPool (maxPool0 timeout0 : Z)
    (cs : list (call SyncRequest SyncResponse)) :
  exists w, run_calls cs (NewNetworkTransport maxPool0 timeout0) = Done (tt, w) /\
    forall tgt : string, len (idle w tgt) <= Z.max 0 maxPool0.
Proof.
  destruct (run_calls_invariant
              (fun w => pool_bounded w /\ maxPool (nt w) = maxPool0) cs
              (NewNetworkTransport maxPool0 timeout0)) as (w & Hrun & _ & Hb & Hm).
  - intros w1 w2 [Hb Hm] Hp Hm2. split; [|congruence].
    unfold pool_bounded, idle in *. rewrite Hp, Hm2. done.
  - intros w1 tgt rpcType args resp0 io r w2 [Hb Hm] Hrun. split.
    + by apply (genericRPC_keeps_bound w1 tgt rpcType args resp0 io r).
    + destruct (genericRPC_summary w1 tgt rpcType args resp0 io)
        as (r0 & w0 & evs & Hrun0 & _ & _ & _ & Hmp & _).
      rewrite Hrun in Hrun0. injection Hrun0 as <- <-. congruence.
  - done.
  - split; [|done]. intros tgt. unfold idle. simpl. rewrite lookup_empty.
    unfold len. simpl. lia.
  - exists w. split; [done|]. intros tgt. specialize (Hb tgt). by rewrite Hm in Hb.
Qed.

(** X22. After any sequence of [Sync] and [Close] calls every idle
    connection is filed under the target it leads to, so that the
    connection [getConn] returns for a target is always one to that
    target. *)
Theorem calls_reach_their_target (maxPool0 timeout0 : Z)
    (cs : list (call SyncRequest SyncResponse)) :
  exists w, run_calls cs (NewNetworkTransport maxPool0 timeout0) = Done (tt, w) /\
    forall (tgt : string) (to : Z) (dr : error + conn_id) c (w1 : W),
      getConn tgt to dr w = Done ((Some c, None), w1) -> target c = tgt.
Proof.
  destruct (run_calls_invariant pool_keyed cs
              (NewNetworkTransport maxPool0 timeout0)) as (w & Hrun & _ & Hk).
  - intros w1 w2 Hk Hp _. unfold pool_keyed, idle in *. by rewrite Hp.
  - intros w1 tgt rpcType args resp0 io r w2 Hk Hrun.
    by apply (genericRPC_keeps_keys w1 tgt rpcType args resp0 io r).
  - done.
  - intros tgt c. unfold idle. simpl. rewrite lookup_empty. simpl.
    intros Hin. by apply elem_of_nil in Hin.
  - exists w. split; [done|]. intros tgt to dr c w1 Hget.
    destruct (getConn_detail w tgt to dr)
      as [(conns & c0 & Hlk & Hget0)|[(_ & k & _ & Hget0)|(_ & e & _ & Hget0)]];
      rewrite Hget in Hget0; [| |done].
    + injection Hget0 as -> _. apply Hk. unfold idle. rewrite Hlk. simpl.
      apply elem_of_app. right. by apply list_elem_of_singleton.
    + by injection Hget0 as -> _.
Qed.

Lemma run_calls_shutdown (cs : list (call SyncRequest SyncResponse)) : forall w,
  consistent w ->
  exists w', run_calls cs w = Done (tt, w') /\ consistent w' /\
    timeout (nt w') = timeout (nt w) /\ maxPool (nt w') = maxPool (nt w) /\
    shutdown (nt w') = shutdown (nt w) || existsb is_close cs /\
    count_events is_stream_close (trace w')
    = (count_events is_stream_close (trace w)
       + (if negb (shutdown (nt w)) && existsb is_close cs then 1 else 0))%nat.
Proof.
  induction cs as [|[|tgt args resp0 io] cs IH]; intros w Hcons.
  - exists w. simpl. rewrite orb_false_r, andb_false_r, Nat.add_0_r. done.
  - destruct (Close_cases w Hcons) as (w1 & Hclose & Hcons1 & Hs1 & _ & Hm & Hto & Htr).
    destruct (IH w1 Hcons1) as (w' & Hrun & Hcons' & Hto' & Hm' & Hs' & Hcnt).
    exists w'. simpl. unfold bind. rewrite Hclose.
    split; [done|]. split; [done|]. split; [congruence|]. split; [congruence|].
    rewrite Hs', Hcnt, Hs1, Htr, count_events_app. simpl.
    rewrite orb_true_r, andb_true_r.
    destruct (shutdown (nt w)); simpl; split; try done; cbn; lia.
  - destruct (genericRPC_summary w tgt rpcSync args resp0 io)
      as (r & w1 & evs & Hrun1 & Htr & Hs & Hch & Hm & Hto & Hsc & _).
    destruct (IH w1) as (w' & Hrun & Hcons' & Hto' & Hm' & Hs' & Hcnt).
    { unfold consistent in *. congruence. }
    exists w'. simpl. unfold bind, Sync. rewrite Hrun1.
    split; [done|]. split; [done|]. split; [congruence|]. split; [congruence|].
    rewrite Hs', Hcnt, Hs, Htr, count_events_app, Hsc, Nat.add_0_r. done.
Qed.

(** X23. Shutdown is permanent and the stream layer is closed exactly
    once: after any sequence of [Sync] and [Close] calls on a new
    transport, the transport is shut down exactly when the sequence
    contains a [Close], the flag and the signal agree, [stream.Close] was
    called once if so and never otherwise, and [maxPool] and the timeout
    are those given at construction. *)
Theorem calls_shut_down_once (maxPool0 timeout0 : Z)
    (cs : list (call SyncRequest SyncResponse)) :
  exists w, run_calls cs (NewNetworkTransport maxPool0 timeout0) = Done (tt, w) /\
    shutdown (nt w) = existsb is_close cs /\
    shutdownCh (nt w) = existsb is_close cs /\
    count_events is_stream_close (trace w) = (if existsb is_close cs then 1 else 0)%nat /\
    maxPool (nt w) = maxPool0 /\ timeout (nt w) = timeout0.
Proof.
  destruct (run_calls_shutdown cs (NewNetworkTransport maxPool0 timeout0))
    as (w & Hrun & Hcons & Hto & Hm & Hs & Hcnt); [done|].
  exists w. simpl in *. unfold consistent in Hcons.
  split; [done|]. split; [done|]. split; [congruence|]. done.
Qed.


(* ===================================================================== *)
(** ** NetworkTransport: reuse and isolation of idle connections *)
(* ===================================================================== *)

(** X24. A successful round trip on a running transport leaves its
    connection for the next call: with room in the pool, the next
    [getConn] for the target returns that very connection and dials
    nothing, and the idle lists are then as they were while the connection
    was held. *)
Theorem successful_call_leaves_connection_for_reuse w (tgt : string)
    (rpcType : Z) (args : SyncRequest) (resp0 : SyncResponse) io c (w1 : W) :
  pool_keyed w -> pool_bounded w -> 0 < maxPool (nt w) ->
  shutdownCh (nt w) = false -> round_trip_ok io = true ->
  getConn tgt (timeout (nt w)) (dial_r io) w = Done ((Some c, None), w1) ->
  exists r w',
    genericRPC tgt rpcType args resp0 io w = Done (r, w') /\
    forall (to : Z) (dr : error + conn_id),
      exists w2, getConn tgt to dr w' = Done ((Some c, None), w2) /\
                 trace w2 = trace w' /\
                 forall t : string, idle w2 t = idle w1 t.
Proof.
  intros Hk Hb Hmp Hup Hok Hget.
  destruct (genericRPC_finish w tgt rpcType args resp0 io c w1 Hget)
    as (r & w' & evs & Hrun & _ & _ & _ & _ & _ & _ & _ & Hend).
  assert (Hw1 : target c = tgt /\ shutdownCh (nt w1) = false /\
                len (idle w1 tgt) < maxPool (nt w1)).
  { destruct (getConn_detail w tgt (timeout (nt w)) (dial_r io))
      as [(conns & c0 & Hlk & Hget0)|[(Hidle & k & _ & Hget0)|(_ & e & _ & Hget0)]];
      rewrite Hget in Hget0; [| |done].
    - injection Hget0 as -> ->. split.
      { apply Hk. unfold idle. rewrite Hlk. simpl. apply elem_of_app. right.
        by apply list_elem_of_singleton. }
      split; [done|]. unfold idle. simpl. rewrite lookup_insert_eq. simpl.
      specialize (Hb tgt). unfold idle in Hb. rewrite Hlk in Hb. simpl in Hb.
      rewrite len_snoc in Hb. lia.
    - injection Hget0 as -> ->. split; [done|]. split; [done|].
      unfold idle in *. simpl. rewrite Hidle. unfold len. simpl. lia. }
  destruct Hw1 as (Htgt & Hup1 & Hroom1). rewrite Htgt in Hend.
  exists r, w'. split; [done|].
  destruct Hend as [(_ & _ & _ & Hpool & _)|(_ & Hwhy & _)].
  2: { destruct (Hwhy Hok) as [?|?]; [congruence|lia]. }
  intros to dr.
  exists (with_pool (<[tgt := idle w1 tgt]> (connPool (nt w'))) w').
  split.
  - unfold getConn. run.
    rewrite (getPooledConn_top w' tgt (idle w1 tgt) c); [done|].
    rewrite Hpool. apply lookup_insert_eq.
  - split; [done|]. intros t. unfold idle. simpl. rewrite Hpool, insert_insert_eq.
    destruct (decide (tgt = t)) as [->|Hne].
    + by rewrite lookup_insert_eq.
    + by rewrite lookup_insert_ne.
Qed.

(** X25. A call touches the idle connections of its own target only: the
    idle list of every other target is after the call what it was before. *)
Theorem calls_leave_other_targets_alone w (tgt : string) (rpcType : Z)
    (args : SyncRequest) (resp0 : SyncResponse) io r (w' : W) (t : string) :
  pool_keyed w -> genericRPC tgt rpcType args resp0 io w = Done (r, w') ->
  t <> tgt -> idle w' t = idle w t.
Proof.
  intros Hk Hrun Hne.
  destruct (genericRPC_summary w tgt rpcType args resp0 io)
    as (r0 & w0 & evs & Hrun0 & _ & _ & _ & _ & _ & _ & Hend).
  rewrite Hrun in Hrun0. injection Hrun0 as <- <-.
  unfold idle.
  destruct Hend as [(_ & _ & -> & _)|(c & base & Htaken & Hend)]; [done|].
  assert (Hc : target c = tgt /\ base !! t = connPool (nt w) !! t).
  { destruct Htaken as [(_ & _ & Htgt & ->)|(conns & Hlk & ->)]; [done|].
    split.
    - apply Hk. unfold idle. rewrite Hlk. simpl. apply elem_of_app. right.
      by apply list_elem_of_singleton.
    - by rewrite lookup_insert_ne. }
  destruct Hc as [Htgt Hbase].
  destruct Hend as [(_ & _ & _ & -> & _)|(-> & _)].
  - rewrite lookup_insert_ne by congruence. by rewrite Hbase.
  - by rewrite Hbase.
Qed.


(* ===================================================================== *)
(** ** NetworkTransport: no connection is closed twice or pooled closed *)
(* ===================================================================== *)

Lemma sound_transfer w (w' : W) (ids : list conn_id) :
  (forall t : string, idle w' t = idle w t) ->
  (forall j : conn_id, closes j (trace w') = closes j (trace w)) ->
  conns_sound w ids -> conns_sound w' ids.
Proof.
  intros Hidle Hcl (Ho & Hd & Hc & Hf).
  split; [|split; [|split]].
  - intros t c0 Hin. rewrite Hidle in Hin. rewrite Hcl. by apply (Ho t).
  - intros t1 t2 i j0 c1 c2. rewrite !Hidle. apply Hd.
  - intros j. rewrite Hcl. apply Hc.
  - intros j Hj. destruct (Hf j Hj) as [Hz Hne]. split; [by rewrite Hcl|].
    intros t c0 Hin. rewrite Hidle in Hin. by apply (Hne t).
Qed.

Lemma sound_weaken w (k : conn_id) (ids : list conn_id) :
  conns_sound w (k :: ids) -> conns_sound w ids.
Proof.
  intros (Ho & Hd & Hc & Hf). split; [done|]. split; [done|]. split; [done|].
  intros j Hj. apply Hf. apply elem_of_cons. by right.
Qed.

(** Taking the last idle connection of a target out of a sound pool. *)
Lemma sound_take w (wb : W) c (tgt : string) (ids : list conn_id) :
  conns_sound w ids ->
  idle w tgt = idle wb tgt ++ [c] ->
  (forall t : string, t <> tgt -> idle wb t = idle w t) ->
  (forall j : conn_id, closes j (trace wb) = closes j (trace w)) ->
  conns_sound wb ids /\ closes (conn c) (trace wb) = 0%nat /\
  (forall (t : string) c0, c0 ∈ idle wb t -> conn c0 <> conn c) /\
  conn c ∉ ids.
Proof.
  intros (Ho & Hd & Hc & Hf) Htgt Hother Hcl.
  assert (Hsub : forall (t : string) (i : nat) c0,
            idle wb t !! i = Some c0 ->
            idle w t !! i = Some c0 /\ (t = tgt -> (i < length (idle wb tgt))%nat)).
  { intros t i c0 Hlk. destruct (decide (t = tgt)) as [->|Hne].
    - split; [rewrite Htgt; by apply lookup_app_l_Some|].
      intros _. by apply lookup_lt_Some in Hlk.
    - rewrite <- Hother by done. done. }
  assert (Hin : forall (t : string) c0, c0 ∈ idle wb t -> c0 ∈ idle w t).
  { intros t c0 [i Hi]%list_elem_of_lookup. destruct (Hsub t i c0 Hi) as [Hw _].
    apply list_elem_of_lookup. by exists i. }
  assert (Hc_in : c ∈ idle w tgt).
  { rewrite Htgt. apply elem_of_app. right. by apply list_elem_of_singleton. }
  assert (Hc_at : idle w tgt !! length (idle wb tgt) = Some c).
  { rewrite Htgt, lookup_app_r, Nat.sub_diag by lia. done. }
  split; [split; [|split; [|split]]|split; [|split]].
  - intros t c0 Hc0. rewrite Hcl. apply (Ho t). by apply Hin.
  - intros t1 t2 i j0 c1 c2 Hl1 Hl2 Heq.
    destruct (Hsub _ _ _ Hl1) as [Hw1 _]. destruct (Hsub _ _ _ Hl2) as [Hw2 _].
    by apply (Hd _ _ _ _ _ _ Hw1 Hw2).
  - intros j. rewrite Hcl. apply Hc.
  - intros j Hj. destruct (Hf j Hj) as [Hz Hne]. split; [by rewrite Hcl|].
    intros t c0 Hc0. apply (Hne t). by apply Hin.
  - rewrite Hcl. by apply (Ho tgt).
  - intros t c0 [i Hi]%list_elem_of_lookup Heq.
    destruct (Hsub t i c0 Hi) as [Hw Hlt].
    destruct (Hd _ _ _ _ _ _ Hw Hc_at Heq) as [-> ->]. specialize (Hlt eq_refl). lia.
  - intros Hin_ids. destruct (Hf (conn c) Hin_ids) as [_ Hne].
    by apply (Hne tgt c).
Qed.

(** Taking a new connection from the stream layer. *)
Lemma sound_dial w (k : conn_id) (ids : list conn_id) :
  conns_sound w (k :: ids) -> NoDup (k :: ids) ->
  conns_sound w ids /\ closes k (trace w) = 0%nat /\
  (forall (t : string) c0, c0 ∈ idle w t -> conn c0 <> k) /\ k ∉ ids.
Proof.
  intros Hs Hnd. apply NoDup_cons in Hnd as [Hnotin _].
  split; [by apply (sound_weaken w k)|].
  destruct Hs as (_ & _ & _ & Hf).
  destruct (Hf k) as [Hcl Hne]; [by apply elem_of_cons; left|]. done.
Qed.

(** Putting the held connection back at the end of its target's list. *)
Lemma sound_add w (w' : W) c (ids : list conn_id) :
  conns_sound w ids -> closes (conn c) (trace w) = 0%nat ->
  (forall (t : string) c0, c0 ∈ idle w t -> conn c0 <> conn c) ->
  conn c ∉ ids ->
  idle w' (target c) = idle w (target c) ++ [c] ->
  (forall t : string, t <> target c -> idle w' t = idle w t) ->
  (forall j : conn_id, closes j (trace w') = closes j (trace w)) ->
  conns_sound w' ids.
Proof.
  intros (Ho & Hd & Hc & Hf) H0 H1 H2 Hat Hother Hcl.
  assert (Hcases : forall (t : string) (i : nat) c0,
            idle w' t !! i = Some c0 ->
            idle w t !! i = Some c0 \/
            (t = target c /\ i = length (idle w (target c)) /\ c0 = c)).
  { intros t i c0 Hlk. destruct (decide (t = target c)) as [->|Hne].
    - rewrite Hat in Hlk. apply lookup_app_Some in Hlk as [Hl|[Hge Hr]]; [by left|].
      right. apply list_lookup_singleton_Some in Hr as [Hi ->].
      split; [done|]. split; [lia|done].
    - rewrite Hother in Hlk by done. by left. }
  assert (Hin : forall (t : string) c0, c0 ∈ idle w' t -> c0 ∈ idle w t \/ c0 = c).
  { intros t c0 [i Hi]%list_elem_of_lookup.
    destruct (Hcases t i c0 Hi) as [Hw|(_ & _ & ->)]; [|by right].
    left. apply list_elem_of_lookup. by exists i. }
  assert (Hpair : forall t1 t2 i j0 c1 c2,
            idle w' t1 !! i = Some c1 -> idle w' t2 !! j0 = Some c2 ->
            conn c1 = conn c2 -> t1 = t2 /\ i = j0).
  { intros t1 t2 i j0 c1 c2 Hl1 Hl2 Heq.
    destruct (Hcases _ _ _ Hl1) as [Hw1|(-> & -> & ->)];
      destruct (Hcases _ _ _ Hl2) as [Hw2|(-> & -> & ->)].
    - by apply (Hd _ _ _ _ _ _ Hw1 Hw2).
    - exfalso. apply (H1 t1 c1); [|done]. apply list_elem_of_lookup. by exists i.
    - exfalso. apply (H1 t2 c2); [|done]. apply list_elem_of_lookup. by exists j0.
    - done. }
  split; [|split; [|split]].
  - intros t c0 Hc0. rewrite Hcl. destruct (Hin t c0 Hc0) as [Hw| ->]; [|done].
    by apply (Ho t).
  - exact Hpair.
  - intros j. rewrite Hcl. apply Hc.
  - intros j Hj. split.
    + rewrite Hcl. by apply Hf.
    + intros t c0 Hc0. destruct (Hin t c0 Hc0) as [Hw| ->].
      * destruct (Hf j Hj) as [_ Hne]. by apply (Hne t).
      * intros <-. done.
Qed.

(** Closing the held connection. *)
Lemma sound_closed w (w' : W) c (ids : list conn_id) :
  conns_sound w ids -> closes (conn c) (trace w) = 0%nat ->
  (forall (t : string) c0, c0 ∈ idle w t -> conn c0 <> conn c) ->
  conn c ∉ ids ->
  (forall t : string, idle w' t = idle w t) ->
  (forall j : conn_id,
     closes j (trace w') = (closes j (trace w) + if (conn c =? j)%nat then 1 else 0)%nat) ->
  conns_sound w' ids.
Proof.
  intros (Ho & Hd & Hc & Hf) H0 H1 H2 Hidle Hcl.
  split; [|split; [|split]].
  - intros t c0 Hc0. rewrite Hidle in Hc0. rewrite Hcl, (Ho t) by done.
    destruct (Nat.eqb_spec (conn c) (conn c0)) as [Heq|]; [|done].
    exfalso. by apply (H1 t c0).
  - intros t1 t2 i j0 c1 c2. rewrite !Hidle. apply Hd.
  - intros j. rewrite Hcl. destruct (Nat.eqb_spec (conn c) j) as [<-|].
    + rewrite H0. lia.
    + specialize (Hc j). lia.
  - intros j Hj. split.
    + rewrite Hcl. destruct (Hf j Hj) as [-> _].
      destruct (Nat.eqb_spec (conn c) j) as [<-|]; [done|done].
    + intros t c0 Hc0. rewrite Hidle in Hc0. destruct (Hf j Hj) as [_ Hne].
      by apply (Hne t).
Qed.


Lemma genericRPC_keeps_sound w (tgt : string) (rpcType : Z) (args : SyncRequest)
    (resp0 : SyncResponse) io r (w' : W) (ids : list conn_id) :
  conns_sound w (match dial_r io with inr k => k :: ids | inl _ => ids end) ->
  NoDup (match dial_r io with inr k => k :: ids | inl _ => ids end) ->
  genericRPC tgt rpcType args resp0 io w = Done (r, w') ->
  conns_sound w' ids.
Proof.
  intros Hs Hnd Hrun.
  destruct (genericRPC_summary w tgt rpcType args resp0 io)
    as (r0 & w0 & evs & Hrun0 & Htr & _ & _ & _ & _ & _ & Hend).
  rewrite Hrun in Hrun0. injection Hrun0 as <- <-.
  destruct Hend as [(_ & (e & He) & Hpool & Hcl)|(c & base & Htaken & Hend)].
  { rewrite He in Hs. apply (sound_transfer w); [| |done].
    - intros t. unfold idle. by rewrite Hpool.
    - intros j. by rewrite Htr, closes_app, Hcl, Nat.add_0_r. }
  assert (Hwb : conns_sound (with_pool base w) ids /\
                closes (conn c) (trace w) = 0%nat /\
                (forall (t : string) c0,
                    c0 ∈ idle (with_pool base w) t -> conn c0 <> conn c) /\
                conn c ∉ ids).
  { destruct Htaken as [(_ & Hdr & _ & ->)|(conns & Hlk & ->)].
    - rewrite Hdr in Hs, Hnd.
      destruct (sound_dial w (conn c) ids Hs Hnd) as (Hs' & H0 & H1 & H2).
      split; [|done]. by apply (sound_transfer w).
    - assert (Hs' : conns_sound w ids).
      { destruct (dial_r io); [done|]. by apply (sound_weaken w c0). }
      apply (sound_take w (with_pool (<[tgt := conns]> (connPool (nt w))) w) c tgt ids Hs').
      + unfold idle. simpl. by rewrite lookup_insert_eq, Hlk.
      + intros t Hne. unfold idle. simpl. by rewrite lookup_insert_ne.
      + done. }
  destruct Hwb as (Hs' & H0 & H1 & H2).
  destruct Hend as [(_ & _ & _ & Hpool & Hcl)|(Hpool & _ & Hcl)].
  - apply (sound_add (with_pool base w) w' c ids Hs'); try done.
    + unfold idle. simpl. by rewrite Hpool, lookup_insert_eq.
    + intros t Hne. unfold idle. simpl. by rewrite Hpool, lookup_insert_ne.
    + intros j. simpl. by rewrite Htr, closes_app, Hcl, Nat.add_0_r.
  - apply (sound_closed (with_pool base w) w' c ids Hs'); try done.
    + intros t. unfold idle. simpl. by rewrite Hpool.
    + intros j. simpl. by rewrite Htr, closes_app, Hcl.
Qed.

Lemma run_calls_sound (cs : list (call SyncRequest SyncResponse)) : forall w,
  consistent w -> conns_sound w (dial_ids cs) -> NoDup (dial_ids cs) ->
  exists w', run_calls cs w = Done (tt, w') /\ conns_sound w' [].
Proof.
  induction cs as [|[|tgt args resp0 io] cs IH]; intros w Hcons Hs Hnd.
  - by exists w.
  - destruct (Close_cases w Hcons) as (w1 & Hclose & Hcons1 & _ & Hp & _ & _ & Htr).
    destruct (IH w1 Hcons1) as (w' & Hrun & Hs'); [|done|].
    + apply (sound_transfer w); [| |done].
      * intros t. unfold idle. by rewrite Hp.
      * intros j. rewrite Htr, closes_app. destruct (shutdown (nt w)); simpl; lia.
    + exists w'. simpl. unfold bind. by rewrite Hclose.
  - destruct (genericRPC_summary w tgt rpcSync args resp0 io)
      as (r & w1 & evs & Hrun1 & _ & Hsd & Hch & _).
    simpl in Hs, Hnd.
    assert (Hnd' : NoDup (dial_ids cs)).
    { destruct (dial_r io); [done|]. by apply NoDup_cons in Hnd as [_ ?]. }
    destruct (IH w1) as (w' & Hrun & Hs'); [| |done|].
    + unfold consistent in *. congruence.
    + by apply (genericRPC_keeps_sound w tgt rpcSync args resp0 io r w1).
    + exists w'. simpl. unfold bind, Sync. by rewrite Hrun1.
Qed.

(** X26. If the stream layer never hands out the same connection twice,
    then after any sequence of [Sync] and [Close] calls no connection has
    been closed more than once, no idle connection of the pool has been
    closed, and no connection is idle in two places. *)
Theorem calls_keep_connections_sound (maxPool0 timeout0 : Z)
    (cs : list (call SyncRequest SyncResponse)) :
  NoDup (dial_ids cs) ->
  exists w, run_calls cs (NewNetworkTransport maxPool0 timeout0) = Done (tt, w) /\
    closed_once w /\ pool_open w /\ pool_distinct w.
Proof.
  intros Hnd.
  destruct (run_calls_sound cs (NewNetworkTransport maxPool0 timeout0))
    as (w & Hrun & Ho & Hd & Hc & _); [done| |done|].
  - split; [|split; [|split]].
    + intros t c0. unfold idle. simpl. rewrite lookup_empty. simpl.
      intros Hin. by apply elem_of_nil in Hin.
    + intros t1 t2 i j c1 c2. unfold idle. simpl. rewrite lookup_empty. simpl.
      intros Hl. by rewrite lookup_nil in Hl.
    + intros j. simpl. lia.
    + intros j _. split; [done|]. intros t c0. unfold idle. simpl.
      rewrite lookup_empty. simpl. intros Hin. by apply elem_of_nil in Hin.
  - by exists w.
Qed.

End TransportFacts.

(* ===================================================================== *)
(** ** Instances *)
(* ===================================================================== *)

(** The instances below are on a transport with room for three idle
    connections and no timeout, over payloads of type [unit]. *)

(** [Close_idempotent] on the transport as constructed. *)
Lemma Close_idempotent_witness :
  let w := net.NewNetworkTransport (SyncRequest:=unit) (SyncResponse:=unit) 3 0 in
  net.consistent w /\
  exists w1,
    net.Close w = Done (None, w1) /\
    net.Close w1 = Done (None, w1) /\
    net.bind net.Close (fun _ => net.Close) w = net.Close w /\
    net.consistent w1 /\
    net.shutdown (net.nt w1) = true /\ net.shutdownCh (net.nt w1) = true /\
    (net.shutdown (net.nt w) = false -> w1 = net.closed_world w) /\
    (net.shutdown (net.nt w) = true -> w1 = w).
Proof.
  split; [reflexivity|].
  apply (Close_idempotent (net.NewNetworkTransport 3 0)). reflexivity.
Defined.

(** [pool_admission_and_reuse]: a connection to "peer" is admitted to the
    empty pool and handed out again. *)
Lemma pool_admission_and_reuse_witness :
  let w := net.NewNetworkTransport (SyncRequest:=unit) (SyncResponse:=unit) 3 0 in
  let c := net.mkNetConn "peer" 7%nat in
  exists w1,
    net.returnConn c w = Done (tt, w1) /\
    net.connPool (net.nt w1) = <["peer" := [c]]> ∅ /\
    net.getPooledConn "peer" w1
    = Done (Some c, net.with_pool (<["peer" := []]> ∅) w).
Proof.
  intros w c.
  destruct (pool_admission_and_reuse w c) as (_ & Hadm & _ & _).
  destruct Hadm as (w1 & Hret & Hpool & _ & Hget).
  - reflexivity.
  - simpl. rewrite lookup_empty. unfold len. simpl. lia.
  - exists w1. simpl in Hpool, Hget. rewrite lookup_empty in Hpool, Hget.
    split; [exact Hret|]. split; [exact Hpool|exact Hget].
Defined.

(** [genericRPC_application_error]: the peer answers the error string
    "boom"; the dialed connection ends up pooled. *)
Lemma genericRPC_application_error_witness :
  let w := net.NewNetworkTransport (SyncRequest:=unit) (SyncResponse:=unit) 3 0 in
  let c := net.mkNetConn "peer" 7%nat in
  let io := net.mkRpcIo (inr 7%nat) None None None (inr "boom") (inr tt) in
  exists w2 w',
    net.genericRPC "peer" net.rpcSync tt tt io w
    = Done ((Some (net.Errorf "boom" []), tt), w') /\
    net.returnConn c w2 = Done (tt, w') /\
    net.connPool (net.nt w') = <["peer" := [c]]> ∅ /\
    net.closes 7%nat (net.trace w') = 0%nat.
Proof.
  intros w c io.
  destruct (genericRPC_application_error w "peer" net.rpcSync tt tt io c
              {| net.nt := net.nt w; net.trace := [net.EvDial "peer" 0] |} "boom" tt)
    as (w2 & w' & Hrun & Hret & _ & _ & Hadm);
    try reflexivity; try discriminate.
  exists w2, w'. split; [exact Hrun|]. split; [exact Hret|].
  simpl in Hadm. rewrite lookup_empty in Hadm.
  destruct Hadm as [Hpool Hcl]; [reflexivity | unfold len; simpl; lia |].
  split; [exact Hpool|exact Hcl].
Defined.

(** [response_order]: a reply carrying the error "boom". *)
Lemma response_order_witness :
  let hio := net.mkHandlerIo (SyncRequest:=unit) (SyncResponse:=unit)
               (inr net.rpcSync) (inr tt) (net.Selected tt)
               (net.Selected (net.mkRPCResponse tt (Some (net.ExternalError "boom"))))
               None None in
  exists w',
    net.handleCommand (fun format _ => format) 5%nat hio (net.NewNetworkTransport 3 0)
    = Done (None, w') /\
    net.trace w' = [net.EvReadByte 5%nat; net.EvDecodeReq 5%nat; net.EvDispatch tt;
                    net.EvEncodeString 5%nat "boom"; net.EvEncodeResponse 5%nat tt].
Proof.
  intros hio.
  destruct (response_order (fun format _ => format) (net.NewNetworkTransport 3 0) 5%nat hio tt
              (net.mkRPCResponse tt (Some (net.ExternalError "boom"))))
    as (_ & (w' & Hrun & _ & Htr) & _ & _); try reflexivity.
  exists w'. split; [exact Hrun|exact Htr].
Defined.

(* ===================================================================== *)
(** ** Instances of the further properties: RollingList *)
(* ===================================================================== *)

(** The state the example run ends in, and the one after one more [Add]. *)
Lemma GetItem_negative_index_witness :
  common.GetItem (common.mkRollingList 3 7 [3; 4; 5; 6]) (-1)
  = Done (None, Some common.ErrTooLate).
Proof.
  apply GetItem_negative_index; [|lia].
  unfold common.wf, int_max, len. simpl. lia.
Defined.

Lemma GetItem_on_new_list_witness :
  common.GetItem (common.mkRollingList 3 0 ([] : list Z)) 5
  = Done (None, Some (if 5 <? 0 then common.ErrTooLate else common.ErrKeyNotFound)).
Proof.
  apply (GetItem_on_new_list 3); [reflexivity|].
  unfold is_int, int_min, int_max. lia.
Defined.

Lemma Add_then_GetItem_witness :
  let r1 := common.mkRollingList 3 8 [3; 4; 5; 6; 7] in
  common.tot r1 = 7 + 1 /\
  common.GetItem r1 7 = Done (Some 7, None) /\
  common.GetItem r1 (common.tot r1) = Done (None, Some common.ErrKeyNotFound).
Proof.
  apply (Add_then_GetItem (common.mkRollingList 3 7 [3; 4; 5; 6])).
  - unfold common.wf, int_max, len. simpl. lia.
  - unfold int_max. simpl. lia.
  - reflexivity.
Defined.

Lemma Add_keeps_cached_items_witness :
  common.GetItem (common.mkRollingList 3 8 [3; 4; 5; 6; 7]) 5
  = common.GetItem (common.mkRollingList 3 7 [3; 4; 5; 6]) 5.
Proof.
  apply (Add_keeps_cached_items _ _ 7).
  - unfold common.wf, int_max, len. simpl. lia.
  - unfold int_max. simpl. lia.
  - reflexivity.
  - unfold len. simpl. lia.
Defined.

Lemma too_late_is_final_witness :
  common.GetItem (common.mkRollingList 3 9 [4; 5; 6; 7; 8]) 0
  = Done (None, Some common.ErrTooLate).
Proof.
  apply (too_late_is_final [7; 8] (common.mkRollingList 3 7 [1; 2; 3; 4; 5; 6])).
  - unfold common.wf, int_max, len. simpl. lia.
  - unfold int_max, len. simpl. lia.
  - unfold is_int, int_min, int_max. lia.
  - reflexivity.
  - reflexivity.
Defined.

Lemma Roll_evicts_oldest_witness :
  let r := common.mkRollingList 3 7 [3; 4; 5; 6] in
  let r1 := common.mkRollingList 3 7 [6] in
  common.tot r1 = common.tot r /\ common.size r1 = common.size r /\
  len (common.items r1) = len (common.items r) - common.size r /\
  common.GetItem r1 4
  = if 4 <? common.tot r - len (common.items r) + common.size r
    then Done (None, Some common.ErrTooLate)
    else common.GetItem r 4.
Proof.
  apply (Roll_evicts_oldest (common.mkRollingList 3 7 [3; 4; 5; 6])).
  - unfold common.wf, int_max, len. simpl. lia.
  - unfold is_int, int_min, int_max. lia.
  - reflexivity.
Defined.

Lemma NewRollingList_rejects_witness :
  common.NewRollingList (A:=Z) (-1) = Panic MakeCapOutOfRange.
Proof.
  apply NewRollingList_rejects.
  - unfold is_int, int_min, int_max. lia.
  - left. lia.
Defined.

Lemma Get_agrees_with_GetItem_witness :
  let r := common.mkRollingList 3 7 [3; 4; 5; 6] in
  common.GetItem r 5 = Done (Some 5, None)
  <-> snd (common.Get r) - len (fst (common.Get r)) <= 5 /\
      fst (common.Get r) !! Z.to_nat (5 - (snd (common.Get r) - len (fst (common.Get r))))
      = Some 5.
Proof.
  apply (Get_agrees_with_GetItem (common.mkRollingList 3 7 [3; 4; 5; 6])).
  - unfold common.wf, int_max, len. simpl. lia.
  - unfold is_int, int_min, int_max. lia.
Defined.

Lemma compactions_are_S_adds_apart_witness :
  let r := common.mkRollingList 3 6 [0; 1; 2; 3; 4; 5] in
  exists r2, common.AddAll r [6; 7; 8] = Done r2 /\
    common.roll_trace r [6; 7; 8] = true :: replicate (length [6; 7; 8] - 1) false /\
    (common.needs_roll r2 = true <-> len [6; 7; 8] = 3).
Proof.
  apply (compactions_are_S_adds_apart 3 (common.mkRollingList 3 0 []) (take 6 common.seven)).
  - unfold is_int, int_min, int_max. lia.
  - lia.
  - reflexivity.
  - reflexivity.
  - reflexivity.
  - unfold len. simpl. lia.
Defined.

(* ===================================================================== *)
(** ** Instances of the further properties: NetworkTransport *)
(* ===================================================================== *)

Lemma handleCommand_unknown_tag_witness :
  net.handleCommand net.plain_format 5%nat
    (net.mkHandlerIo (SyncRequest:=unit) (SyncResponse:=unit)
       (inr 9) (inr tt) net.NeverReady net.NeverReady None None)
    net.fresh_transport
  = Done (Some (net.Errorf "unknown rpc type %d" [9]),
          {| net.nt := net.nt net.fresh_transport;
             net.trace := net.trace net.fresh_transport ++ [net.EvReadByte 5%nat] |}).
Proof.
  apply handleCommand_unknown_tag; [reflexivity|]. unfold net.rpcSync. lia.
Defined.

Lemma handleCommand_shutdown_preempts_witness :
  let hio := net.mkHandlerIo (SyncRequest:=unit) (SyncResponse:=unit)
               (inr net.rpcSync) (inr tt) net.ShutdownSeen net.NeverReady None None in
  net.handleCommand net.plain_format 5%nat hio net.fresh_transport
  = Done (Some net.ErrTransportShutdown,
          {| net.nt := net.nt net.fresh_transport;
             net.trace := net.trace net.fresh_transport
                          ++ [net.EvReadByte 5%nat; net.EvDecodeReq 5%nat] |}).
Proof.
  intros hio.
  destruct (handleCommand_shutdown_preempts net.plain_format net.fresh_transport 5%nat hio tt)
    as [Hfirst _]; [reflexivity|reflexivity|].
  apply Hfirst. reflexivity.
Defined.

Lemma handleConn_serves_in_order_witness :
  let eof := net.mkHandlerIo (SyncRequest:=unit) (SyncResponse:=unit)
               (inl net.EOF) (inl net.EOF) net.NeverReady net.NeverReady None None in
  net.handleConn net.plain_format 5%nat
    (map net.served [(tt, net.mkRPCResponse tt None)] ++ [(eof, None)]) net.fresh_transport
  = Done ([], {| net.nt := net.nt net.fresh_transport;
                 net.trace :=
                   net.trace net.fresh_transport
                   ++ concat (map (fun cmd => net.served_events net.plain_format 5%nat
                                                (fst cmd) (snd cmd))
                                  [(tt, net.mkRPCResponse tt None)])
                   ++ [net.EvReadByte 5%nat; net.EvConnClose 5%nat] |}).
Proof.
  intros eof.
  apply (handleConn_serves_in_order net.plain_format net.fresh_transport 5%nat
           [(tt, net.mkRPCResponse tt None)] eof None []).
  reflexivity.
Defined.

Lemma listen_survives_accept_errors_witness :
  net.listen [inl (net.ExternalError "refused"); inr 4%nat] net.fresh_transport
  = Done (net.Waiting [net.AcceptFailed (net.ExternalError "refused"); net.Spawned 4%nat],
          net.fresh_transport).
Proof.
  apply (listen_survives_accept_errors net.fresh_transport
           [inl (net.ExternalError "refused"); inr 4%nat]).
  reflexivity.
Defined.

Lemma listen_stops_after_Close_witness :
  exists w1, net.Close net.fresh_transport = Done (None, w1) /\
    net.listen (map inr [4%nat] ++ inl (net.ExternalError "closed") :: [inr 6%nat]) w1
    = Done (net.Returned (map net.Spawned [4%nat]), w1).
Proof.
  apply (listen_stops_after_Close net.fresh_transport). reflexivity.
Defined.

(** What [getConn] answers on the two transports when it has to dial. *)
Lemma getConn_fresh_transport :
  net.getConn "peer" (net.timeout (net.nt net.fresh_transport)) (net.dial_r net.peer_io)
    net.fresh_transport
  = Done ((Some (net.mkNetConn "peer" 7%nat), None),
          net.fresh_dialed).
Proof. reflexivity. Qed.

Lemma getConn_shut_transport :
  net.getConn "peer" (net.timeout (net.nt net.shut_transport)) (net.dial_r net.peer_io)
    net.shut_transport
  = Done ((Some (net.mkNetConn "peer" 7%nat), None),
          net.shut_dialed).
Proof. reflexivity. Qed.

Lemma genericRPC_pools_or_closes_witness :
  let c := net.mkNetConn "peer" 7%nat in
  let w1 := net.fresh_dialed in
  exists r w',
    net.genericRPC "peer" net.rpcSync tt tt net.peer_io net.fresh_transport = Done (r, w') /\
    ((last (net.idle w' (net.target c)) = Some c /\
      forall j : net.conn_id,
        net.closes j (net.trace w') = net.closes j (net.trace w1)) \/
     (net.connPool (net.nt w') = net.connPool (net.nt w1) /\
      net.closes (net.conn c) (net.trace w')
      = S (net.closes (net.conn c) (net.trace w1)) /\
      forall j : net.conn_id, j <> net.conn c ->
        net.closes j (net.trace w') = net.closes j (net.trace w1))).
Proof.
  apply (genericRPC_pools_or_closes net.fresh_transport "peer" net.rpcSync tt tt net.peer_io).
  exact getConn_fresh_transport.
Defined.

Lemma deadline_set_iff_timeout_witness :
  exists r w' rest,
    net.genericRPC "peer" net.rpcSync tt tt net.peer_io net.fresh_transport = Done (r, w') /\
    net.trace w' = [net.EvDial "peer" 0] ++ [] ++ net.EvWriteByte 7%nat net.rpcSync :: rest /\
    net.count_events net.is_deadline rest = 0%nat.
Proof.
  apply (deadline_set_iff_timeout net.fresh_transport "peer" net.rpcSync tt tt net.peer_io
           (net.mkNetConn "peer" 7%nat) net.fresh_dialed).
  exact getConn_fresh_transport.
Defined.

Lemma shut_down_transport_pools_nothing_witness :
  let w1 := net.shut_dialed in
  exists r w',
    net.genericRPC "peer" net.rpcSync tt tt net.peer_io net.shut_transport = Done (r, w') /\
    net.connPool (net.nt w') = net.connPool (net.nt w1) /\
    net.closes 7%nat (net.trace w') = S (net.closes 7%nat (net.trace w1)) /\
    forall t : string, exists taken : list net.netConn,
      net.idle net.shut_transport t = net.idle w' t ++ taken.
Proof.
  apply (shut_down_transport_pools_nothing net.shut_transport "peer" net.rpcSync tt tt
           net.peer_io (net.mkNetConn "peer" 7%nat) net.shut_dialed).
  - reflexivity.
  - exact getConn_shut_transport.
Defined.

Lemma fresh_transport_keyed : net.pool_keyed net.fresh_transport.
Proof.
  intros tgt c. unfold net.idle. simpl. rewrite lookup_empty. simpl.
  intros Hin. by apply elem_of_nil in Hin.
Qed.

Lemma fresh_transport_bounded : net.pool_bounded net.fresh_transport.
Proof.
  intros tgt. unfold net.idle. simpl. rewrite lookup_empty. unfold len. simpl. lia.
Qed.

Lemma successful_call_leaves_connection_for_reuse_witness :
  let c := net.mkNetConn "peer" 7%nat in
  let w1 := net.fresh_dialed in
  exists r w',
    net.genericRPC "peer" net.rpcSync tt tt net.peer_io net.fresh_transport = Done (r, w') /\
    forall (to : Z) (dr : net.error + net.conn_id),
      exists w2, net.getConn "peer" to dr w' = Done ((Some c, None), w2) /\
                 net.trace w2 = net.trace w' /\
                 forall t : string, net.idle w2 t = net.idle w1 t.
Proof.
  apply (successful_call_leaves_connection_for_reuse net.fresh_transport "peer"
           net.rpcSync tt tt net.peer_io).
  - exact fresh_transport_keyed.
  - exact fresh_transport_bounded.
  - simpl. lia.
  - reflexivity.
  - reflexivity.
  - exact getConn_fresh_transport.
Defined.

Lemma calls_leave_other_targets_alone_witness :
  exists r w',
    net.genericRPC "peer" net.rpcSync tt tt net.peer_io net.fresh_transport = Done (r, w') /\
    net.idle w' "other" = net.idle net.fresh_transport "other".
Proof.
  destruct (genericRPC_summary net.fresh_transport "peer" net.rpcSync tt tt net.peer_io)
    as (r & w' & _ & Hrun & _).
  exists r, w'. split; [exact Hrun|].
  apply (calls_leave_other_targets_alone net.fresh_transport "peer" net.rpcSync tt tt
           net.peer_io r w' "other").
  - exact fresh_transport_keyed.
  - exact Hrun.
  - discriminate.
Defined.

Lemma calls_keep_connections_sound_witness :
  let again := net.mkRpcIo (SyncResponse:=unit)
                 (inr 8%nat) None None None (inr EmptyString) (inr tt) in
  exists w,
    net.run_calls [net.CallSync "peer" tt tt net.peer_io; net.CallClose;
                   net.CallSync "peer" tt tt again] net.fresh_transport = Done (tt, w) /\
    net.closed_once w /\ net.pool_open w /\ net.pool_distinct w.
Proof.
  intros again.
  apply (calls_keep_connections_sound 3 0
           [net.CallSync "peer" tt tt net.peer_io; net.CallClose;
            net.CallSync "peer" tt tt again]).
  simpl. apply NoDup_cons. split.
  - intros Hin. apply list_elem_of_singleton in Hin. discriminate.
  - apply NoDup_singleton.
Defined.
